(** * hub.core.chunk: the chunk packing and chaining engine

    A shallow embedding of [src/hub/core/chunk.py].  Python objects live
    in a heap (a list of chunk records addressed by position), methods
    are computations in a state-and-exception monad over that heap, and
    Python integers are [Z].  Byte counts are assumed to stay below
    2^53, where [ceil(a / b)] on floats agrees with the exact ceiling. *)

From Stdlib Require Import ZArith Lia Bool.
From Stdlib Require Init.Byte Strings.Byte.
From stdpp Require Import base list option.

Local Open Scope Z_scope.

Abbreviation byte := Init.Byte.byte.

(** ** Python helpers *)

Section Slices.
Context {A : Type}.

(** [len(l)] *)
Definition len (l : list A) : Z := Z.of_nat (length l).

(** [l[:k]]; a negative bound counts from the end. *)
Definition slice_to (k : Z) (l : list A) : list A :=
  if 0 <=? k then take (Z.to_nat k) l
  else take (length l - Z.to_nat (- k))%nat l.

(** [l[k:]]; a negative bound counts from the end. *)
Definition slice_from (k : Z) (l : list A) : list A :=
  if 0 <=? k then drop (Z.to_nat k) l
  else drop (length l - Z.to_nat (- k))%nat l.

End Slices.

(** ** Exceptions *)

Inductive value_error_msg :=
| NonPositiveNumSamples   (* "The number of samples ... has to be greater than 0." *)
| IndivisibleBufferLength. (* "Incoming buffer length should be perfectly divisible ..." *)

Inductive exn :=
| ConnectedToNextChunk   (* Exception("Cannot extend a chunk that is connected to the next chunk.") *)
| NoSpaceLeft            (* Exception("Cannot extend a chunk that has no space left.") *)
| AlreadySpawned         (* Exception("A chunk has already been spawned for this one.") *)
| ValueError (m : value_error_msg)
| InvalidRunError        (* raised by the index encoders *)
| ZeroDivisionError
| NotImplementedError
| RecursionError         (* the interpreter's recursion limit was reached *)
| DanglingReference.     (* an address outside the heap; no Python counterpart *)

Inductive outcome (A : Type) :=
| Return (a : A)
| Raise (e : exn).
Arguments Return {A} a.
Arguments Raise {A} e.

(** ** Index encoders *)

(** Modelled from the spec: [hub.core.meta.encode.shape.ShapeEncoder] is
    not among the sources.  Following section 4.3, it is a list of runs
    [(shape, run_length)]; [add_shape] appends one run and fails when
    the run length is not positive or the shape is empty. *)
Definition ShapeEncoder := list (list Z * Z).

Definition add_shape (shape : list Z) (run_length : Z) (enc : ShapeEncoder)
  : outcome ShapeEncoder :=
  if (run_length <=? 0) || bool_decide (shape = [])
  then Raise InvalidRunError
  else Return (enc ++ [(shape, run_length)]).

(** Modelled from the spec: [hub.core.meta.encode.byte_positions.BytePositionsEncoder]
    is not among the sources.  Following section 4.2, it is a list of
    runs [(bytes_per_sample, run_length)]; [add_byte_position] appends
    one run and fails when the run length is not positive;
    [num_samples] is the sum of the run lengths. *)
Definition BytePositionsEncoder := list (Z * Z).

Definition add_byte_position (num_bytes_per_sample run_length : Z)
    (enc : BytePositionsEncoder) : outcome BytePositionsEncoder :=
  if run_length <=? 0
  then Raise InvalidRunError
  else Return (enc ++ [(num_bytes_per_sample, run_length)]).

Definition encoder_num_samples (enc : BytePositionsEncoder) : Z :=
  foldr (fun run acc => run.2 + acc) 0 enc.

(** ** Chunks and the heap *)

Abbreviation addr := nat.

Record Chunk := mkChunk {
  index_shape_encoder : ShapeEncoder;
  index_byte_range_encoder : BytePositionsEncoder;
  max_data_bytes : Z;
  min_data_bytes_target : Z;
  data : list byte;
  next_chunk : option addr
}.

Definition set_index_shape_encoder (e : ShapeEncoder) (c : Chunk) : Chunk :=
  mkChunk e (index_byte_range_encoder c) (max_data_bytes c)
          (min_data_bytes_target c) (data c) (next_chunk c).

Definition set_index_byte_range_encoder (e : BytePositionsEncoder) (c : Chunk) : Chunk :=
  mkChunk (index_shape_encoder c) e (max_data_bytes c)
          (min_data_bytes_target c) (data c) (next_chunk c).

Definition set_data (d : list byte) (c : Chunk) : Chunk :=
  mkChunk (index_shape_encoder c) (index_byte_range_encoder c) (max_data_bytes c)
          (min_data_bytes_target c) d (next_chunk c).

Definition set_next_chunk (n : option addr) (c : Chunk) : Chunk :=
  mkChunk (index_shape_encoder c) (index_byte_range_encoder c) (max_data_bytes c)
          (min_data_bytes_target c) (data c) n.

Abbreviation heap := (list Chunk).

(** ** The state-and-exception monad *)

Definition M (A : Type) : Type := heap -> heap * outcome A.

Definition ret {A} (a : A) : M A := fun h => (h, Return a).

Definition raise {A} (e : exn) : M A := fun h => (h, Raise e).

Definition bind {A B} (m : M A) (k : A -> M B) : M B :=
  fun h => match m h with
           | (h1, Return a) => k a h1
           | (h1, Raise e) => (h1, Raise e)
           end.

Definition lift {A} (o : outcome A) : M A := fun h => (h, o).

Declare Scope chunk_scope.
Delimit Scope chunk_scope with chunk.
Notation "'let!' x ':=' m 'in' k" := (bind m (fun x => k))
  (at level 10, x name, m at level 100, k at level 200) : chunk_scope.
Notation "'do!' m 'in' k" := (bind m (fun _ => k))
  (at level 10, m at level 100, k at level 200) : chunk_scope.
Local Open Scope chunk_scope.

(** Reading an object through a reference. *)
Definition deref (a : addr) : M Chunk :=
  fun h => match h !! a with
           | Some c => (h, Return c)
           | None => (h, Raise DanglingReference)
           end.

(** In-place update of the object behind a reference. *)
Definition update (a : addr) (f : Chunk -> Chunk) : M unit :=
  let! c := deref a in fun h => (<[a := f c]> h, Return tt).

(** Allocation of a new object; its address is the next free position. *)
Definition alloc (c : Chunk) : M addr :=
  fun h => (h ++ [c], Return (length h)).

(** ** The methods of [Chunk] *)

(** [Chunk.__init__]: the object a constructor call builds. *)
Definition Chunk_new (max_data_bytes : Z) : Chunk :=
  {| index_shape_encoder := [];
     index_byte_range_encoder := [];
     max_data_bytes := max_data_bytes;
     min_data_bytes_target := max_data_bytes / 2;
     data := [];
     next_chunk := None |}.

(** [Chunk(max_data_bytes)] *)
Definition Chunk_init (max_data_bytes : Z) : M addr :=
  alloc (Chunk_new max_data_bytes).

Definition num_samples (c : Chunk) : Z :=
  encoder_num_samples (index_byte_range_encoder c).

Definition num_data_bytes (c : Chunk) : Z := len (data c).

Definition has_space (c : Chunk) : bool :=
  num_data_bytes c <? min_data_bytes_target c.

(** [ceil(num_bytes / self.max_data_bytes)].  The source divides as
    floats; the model takes the exact ceiling of the quotient.  The two
    agree for [0 <= num_bytes < 2^53] and [0 < max_data_bytes < 2^53]:
    there the float quotient is off by less than [1 / max_data_bytes],
    too little to reach the next integer.  Beyond that range the
    float result can differ, and a quotient too large for a float
    raises [OverflowError], which the model does not have. *)
Definition _min_chunks_required_for_num_bytes (c : Chunk) (num_bytes : Z) : outcome Z :=
  if max_data_bytes c =? 0 then Raise ZeroDivisionError
  else Return (- ((- num_bytes) / max_data_bytes c)).

Definition _validate_incoming_buffer (incoming_num_bytes num_samples : Z) : outcome unit :=
  if num_samples <=? 0 then Raise (ValueError NonPositiveNumSamples)
  else if negb (incoming_num_bytes mod num_samples =? 0)
       then Raise (ValueError IndivisibleBufferLength)
       else Return tt.

Definition _update_headers (self : addr) (incoming_num_bytes num_samples : Z)
    (sample_shape : list Z) : M unit :=
  do! lift (_validate_incoming_buffer incoming_num_bytes num_samples) in
  let num_bytes_per_sample := incoming_num_bytes / num_samples in
  let! c := deref self in
  let! e := lift (add_shape sample_shape num_samples (index_shape_encoder c)) in
  do! update self (set_index_shape_encoder e) in
  let! c := deref self in
  let! e := lift (add_byte_position num_bytes_per_sample num_samples
               (index_byte_range_encoder c)) in
  update self (set_index_byte_range_encoder e).

Definition _fill (self : addr) (incoming_buffer : list byte) : M Z :=
  let! c := deref self in
  let incoming_num_bytes := len incoming_buffer in
  let! min_chunks_for_incoming_bytes :=
    lift (_min_chunks_required_for_num_bytes c incoming_num_bytes) in
  let! min_chunks_for_incoming_and_current_bytes :=
    lift (_min_chunks_required_for_num_bytes c (incoming_num_bytes + num_data_bytes c)) in
  let incoming_num_bytes_that_will_fit :=
    Z.min incoming_num_bytes (max_data_bytes c - num_data_bytes c) in
  do! (if min_chunks_for_incoming_bytes =? min_chunks_for_incoming_and_current_bytes
   then update self (fun c =>
          set_data (data c ++ slice_to incoming_num_bytes_that_will_fit incoming_buffer) c)
   else ret tt) in
  ret incoming_num_bytes_that_will_fit.

Definition _spawn_child_chunk (self : addr) : M addr :=
  let! c := deref self in
  match next_chunk c with
  | Some _ => raise AlreadySpawned
  | None =>
      let! chunk := Chunk_init (max_data_bytes c) in
      do! update self (set_next_chunk (Some chunk)) in
      ret chunk
  end.

(** [Chunk.extend].  [depth] is the number of nested calls the
    interpreter still allows; the recursive call on the child uses one. *)
Fixpoint extend (depth : nat) (self : addr) (incoming_buffer : list byte)
    (num_samples : Z) (sample_shape : list Z)
    (_leftover_buffer_from_previous_chunk : bool) : M (list addr) :=
  let! c := deref self in
  match next_chunk c with
  | Some _ => raise ConnectedToNextChunk
  | None =>
      if negb (has_space c) then raise NoSpaceLeft
      else
        let incoming_num_bytes := len incoming_buffer in
        do! (if negb _leftover_buffer_from_previous_chunk
         then _update_headers self incoming_num_bytes num_samples sample_shape
         else ret tt) in
        let! processed_num_bytes := _fill self incoming_buffer in
        if incoming_num_bytes <=? processed_num_bytes then ret []
        else
          let forwarding_buffer := slice_from processed_num_bytes incoming_buffer in
          let! child_chunk := _spawn_child_chunk self in
          match depth with
          | O => raise RecursionError
          | S depth' =>
              let! child_chunk_children :=
                extend depth' child_chunk forwarding_buffer num_samples sample_shape true in
              ret (child_chunk :: child_chunk_children)
          end
  end.

(** ** Serialization *)

(** The archive [np.savez] writes in [tobytes]: three named entries. *)
Record Npz := mkNpz {
  npz_index_shape_encoder : ShapeEncoder;
  npz_index_byte_range_encoder : BytePositionsEncoder;
  npz_data : list byte
}.

Definition tobytes (c : Chunk) : Npz :=
  {| npz_index_shape_encoder := index_shape_encoder c;
     npz_index_byte_range_encoder := index_byte_range_encoder c;
     npz_data := data c |}.

(** Modelled from the spec: [Cachable.frombuffer], the inherited loader,
    is not among the sources.  Following sections 4.1 and 6 it rebuilds
    an instance holding the two indexes and the payload of the blob; the
    [next] link is not part of the blob.  The capacity of the rebuilt
    instance is the constructor's default, [DEFAULT_CHUNK_MAX_SIZE], a
    constant that is not among the sources either and is a parameter
    here. *)
Definition Cachable_frombuffer (default_chunk_max_size : Z) (buffer : Npz)
  : outcome Chunk :=
  Return (set_data (npz_data buffer)
           (set_index_byte_range_encoder (npz_index_byte_range_encoder buffer)
              (set_index_shape_encoder (npz_index_shape_encoder buffer)
                 (Chunk_new default_chunk_max_size)))).

(** [Chunk.frombuffer]: calls the inherited loader, then raises before
    the instance can be returned. *)
Definition Chunk_frombuffer (super_frombuffer : Npz -> outcome Chunk) (buffer : Npz)
  : outcome Chunk :=
  match super_frombuffer buffer with
  | Raise e => Raise e
  | Return instance => Raise NotImplementedError
  end.

(** ** Observations on a heap *)

(** The payload of the chunks at [addrs], concatenated in order. *)
Fixpoint chain_data (h : heap) (addrs : list addr) : option (list byte) :=
  match addrs with
  | [] => Some []
  | a :: rest =>
      match h !! a, chain_data h rest with
      | Some c, Some d => Some (data c ++ d)
      | _, _ => None
      end
  end.

(** A test buffer of [n] pairwise recognisable bytes. *)
Definition nth_byte (i : nat) : byte :=
  match Strings.Byte.of_N (N.of_nat i mod 256) with
  | Some b => b
  | None => Init.Byte.x00
  end.

Definition buffer_of_len (n : nat) : list byte := map nth_byte (seq 0 n).

(** A chunk of the given capacity that already holds the bytes [d]. *)
Definition chunk_holding (max_data_bytes : Z) (d : list byte) : Chunk :=
  set_data d (Chunk_new max_data_bytes).

(** ** Predicates and relations of the statements *)

(** The number of chunks [_fill] compares, as an exact ceiling. *)
Definition chunks_needed (max_data_bytes num_bytes : Z) : Z :=
  - ((- num_bytes) / max_data_bytes).

(** A chunk as the constructor leaves its threshold: half the capacity. *)
Definition constructed (c : Chunk) : Prop :=
  min_data_bytes_target c = max_data_bytes c / 2.

(** The capacity bound of one chunk. *)
Definition within_capacity (c : Chunk) : Prop :=
  len (data c) <= max_data_bytes c.

(** A step that keeps the capacity bound of every chunk of the heap. *)
Definition keeps_capacity (h h' : heap) : Prop :=
  Forall within_capacity h -> Forall within_capacity h'.

(** A step that keeps every threshold at half the capacity. *)
Definition keeps_constructed (h h' : heap) : Prop :=
  Forall constructed h -> Forall constructed h'.

(** Two chunks that differ in their encoders at most. *)
Definition same_payload (c c' : Chunk) : Prop :=
  max_data_bytes c' = max_data_bytes c /\
  min_data_bytes_target c' = min_data_bytes_target c /\
  data c' = data c /\ next_chunk c' = next_chunk c.

(** The chunk after [_update_headers] recorded a batch. *)
Definition with_headers (sample_shape : list Z) (num_samples incoming_num_bytes : Z)
    (c : Chunk) : Chunk :=
  set_index_byte_range_encoder
    (index_byte_range_encoder c ++ [(incoming_num_bytes / num_samples, num_samples)])
    (set_index_shape_encoder (index_shape_encoder c ++ [(sample_shape, num_samples)]) c).

(** A call touches its receiver and fresh addresses only. *)
Definition frame (self : addr) (h h' : heap) : Prop :=
  (length h <= length h')%nat /\
  forall a, a <> self -> (a < length h)%nat -> h' !! a = h !! a.

(** Whatever a method does, a chunk already in the heap stays there and
    keeps its capacity, its threshold and, once set, its [next] link;
    its payload is extended at the end. *)
Definition chunk_grows (c c' : Chunk) : Prop :=
  max_data_bytes c' = max_data_bytes c /\
  min_data_bytes_target c' = min_data_bytes_target c /\
  (forall x, next_chunk c = Some x -> next_chunk c' = Some x) /\
  data c `prefix_of` data c'.

Definition heap_grows (h h' : heap) : Prop :=
  forall a c, h !! a = Some c -> exists c', h' !! a = Some c' /\ chunk_grows c c'.




(** The chunks at [children] continue the chain that starts at [a]:
    each [next_chunk] link is the next address of the list, and the last
    chunk has no successor. *)
Fixpoint linked (h : heap) (a : addr) (children : list addr) : Prop :=
  match children with
  | [] => exists c, h !! a = Some c /\ next_chunk c = None
  | b :: rest =>
      (exists c, h !! a = Some c /\ next_chunk c = Some b) /\ linked h b rest
  end.

(** The chain that starts at [a] and continues through [children]
    holds [bytes] cut every [m] bytes: every chunk has capacity [m], a
    chunk with a successor holds the next [m] bytes, and the last chunk
    holds what is left, at most [m] bytes. *)
Fixpoint packed (h : heap) (m : Z) (a : addr) (bytes : list byte)
    (children : list addr) : Prop :=
  match children with
  | [] =>
      exists c, h !! a = Some c /\ max_data_bytes c = m /\
        next_chunk c = None /\ data c = bytes /\ len bytes <= m
  | b :: rest =>
      (exists c, h !! a = Some c /\ max_data_bytes c = m /\
         next_chunk c = Some b /\ data c = slice_to m bytes /\ m < len bytes) /\
      packed h m b (slice_from m bytes) rest
  end.

(** A chunk on which no batch was ever registered. *)
Definition no_headers (c : Chunk) : Prop :=
  index_shape_encoder c = [] /\ index_byte_range_encoder c = [].

(** The exceptions an [extend] call can end with. *)
Definition extend_may_raise (e : exn) : Prop :=
  match e with
  | ConnectedToNextChunk | NoSpaceLeft | ValueError _ | InvalidRunError
  | RecursionError => True
  | AlreadySpawned | ZeroDivisionError | NotImplementedError
  | DanglingReference => False
  end.

(** ** Reasoning about monadic code *)

Lemma bind_inv {A B} (m : M A) (k : A -> M B) (h h' : heap) (r : outcome B) :
  bind m k h = (h', r) ->
  (exists h1 a, m h = (h1, Return a) /\ k a h1 = (h', r)) \/
  (exists e, m h = (h', Raise e) /\ r = Raise e).
Proof.
  unfold bind. destruct (m h) as [h1 [a | e]]; intros H.
  - left. eauto.
  - right. exists e. by inversion H.
Qed.

Lemma bind_Return {A B} (m : M A) (k : A -> M B) (h h1 : heap) (a : A) :
  m h = (h1, Return a) -> bind m k h = k a h1.
Proof. unfold bind. by intros ->. Qed.

Lemma bind_Raise {A B} (m : M A) (k : A -> M B) (h h1 : heap) (e : exn) :
  m h = (h1, Raise e) -> bind m k h = (h1, Raise e).
Proof. unfold bind. by intros ->. Qed.

Lemma deref_Some (a : addr) (h : heap) (c : Chunk) :
  h !! a = Some c -> deref a h = (h, Return c).
Proof. unfold deref. by intros ->. Qed.

Lemma deref_inv (a : addr) (h h' : heap) (r : outcome Chunk) :
  deref a h = (h', r) ->
  h' = h /\ ((exists c, h !! a = Some c /\ r = Return c) \/
             (h !! a = None /\ r = Raise DanglingReference)).
Proof.
  unfold deref. destruct (h !! a) as [c|]; intros H; inversion H; subst; eauto.
Qed.

Lemma update_Some (a : addr) (f : Chunk -> Chunk) (h : heap) (c : Chunk) :
  h !! a = Some c -> update a f h = (<[a := f c]> h, Return tt).
Proof. intros Hc. unfold update. by rewrite (bind_Return _ _ _ _ _ (deref_Some _ _ _ Hc)). Qed.

Lemma update_inv (a : addr) (f : Chunk -> Chunk) (h h' : heap) (r : outcome unit) :
  update a f h = (h', r) ->
  (exists c, h !! a = Some c /\ h' = <[a := f c]> h /\ r = Return tt) \/
  (h !! a = None /\ h' = h /\ r = Raise DanglingReference).
Proof.
  unfold update, bind, deref. destruct (h !! a) as [c|]; intros H; inversion H; subst; eauto.
Qed.

Lemma extend_eq (depth : nat) (self : addr) (buf : list byte) (ns : Z)
    (sh : list Z) (lo : bool) :
  extend depth self buf ns sh lo =
  (let! c := deref self in
   match next_chunk c with
   | Some _ => raise ConnectedToNextChunk
   | None =>
       if negb (has_space c) then raise NoSpaceLeft
       else
         do! (if negb lo then _update_headers self (len buf) ns sh else ret tt) in
         let! processed_num_bytes := _fill self buf in
         if len buf <=? processed_num_bytes then ret []
         else
           let! child_chunk := _spawn_child_chunk self in
           match depth with
           | O => raise RecursionError
           | S depth' =>
               let! child_chunk_children :=
                 extend depth' child_chunk (slice_from processed_num_bytes buf) ns sh true in
               ret (child_chunk :: child_chunk_children)
           end
   end).
Proof. by destruct depth. Qed.

(** ** What each method does to the heap *)

Lemma _update_headers_eq self n ns sh h :
  _update_headers self n ns sh h =
  match _validate_incoming_buffer n ns with
  | Raise e => (h, Raise e)
  | Return _ =>
      match h !! self with
      | None => (h, Raise DanglingReference)
      | Some c =>
          match add_shape sh ns (index_shape_encoder c) with
          | Raise e => (h, Raise e)
          | Return e1 =>
              let c1 := set_index_shape_encoder e1 c in
              match add_byte_position (n / ns) ns (index_byte_range_encoder c1) with
              | Raise e => (<[self := c1]> h, Raise e)
              | Return e2 => (<[self := set_index_byte_range_encoder e2 c1]> h, Return tt)
              end
          end
      end
  end.
Proof.
  unfold _update_headers, bind, lift.
  destruct (_validate_incoming_buffer n ns) as [[]|e]; [|done].
  unfold deref at 1. destruct (h !! self) as [c|] eqn:Hc; [|done].
  destruct (add_shape sh ns (index_shape_encoder c)) as [e1|e]; [|done].
  rewrite (update_Some _ _ _ _ Hc).
  assert (Hlt : (self < length h)%nat) by (eapply lookup_lt_Some; eauto).
  assert (Hc1 : <[self := set_index_shape_encoder e1 c]> h !! self
                = Some (set_index_shape_encoder e1 c))
    by (by apply list_lookup_insert_eq).
  rewrite (deref_Some _ _ _ Hc1). cbn zeta.
  destruct (add_byte_position _ _ _) as [e2|e]; [|done].
  rewrite (update_Some _ _ _ _ Hc1).
  by rewrite list_insert_insert_eq.
Qed.

Lemma _update_headers_inv self n ns sh h h' r :
  _update_headers self n ns sh h = (h', r) ->
  h' = h \/ exists c c', h !! self = Some c /\ same_payload c c' /\ h' = <[self := c']> h.
Proof.
  rewrite _update_headers_eq.
  destruct (_validate_incoming_buffer n ns) as [[]|e]; [|intros [= <- <-]; by left].
  destruct (h !! self) as [c|] eqn:Hc; [|intros [= <- <-]; by left].
  destruct (add_shape sh ns (index_shape_encoder c)) as [e1|e]; [|intros [= <- <-]; by left].
  cbn zeta. destruct (add_byte_position _ _ _) as [e2|e]; intros [= <- <-];
    right; eexists c, _; (split; [done|]); (split; [|done]); by repeat split.
Qed.

Lemma _fill_eq self buf h :
  _fill self buf h =
  match h !! self with
  | None => (h, Raise DanglingReference)
  | Some c =>
      if max_data_bytes c =? 0 then (h, Raise ZeroDivisionError)
      else
        let fit := Z.min (len buf) (max_data_bytes c - num_data_bytes c) in
        (if chunks_needed (max_data_bytes c) (len buf) =?
            chunks_needed (max_data_bytes c) (len buf + num_data_bytes c)
         then <[self := set_data (data c ++ slice_to fit buf) c]> h
         else h,
         Return fit)
  end.
Proof.
  unfold _fill, bind, lift, _min_chunks_required_for_num_bytes, chunks_needed.
  unfold deref at 1. destruct (h !! self) as [c|] eqn:Hc; [|done].
  destruct (max_data_bytes c =? 0); [done|]. cbn zeta.
  destruct (_ =? _); [|done].
  by rewrite (update_Some _ _ _ _ Hc).
Qed.

Lemma _spawn_child_chunk_eq self h :
  _spawn_child_chunk self h =
  match h !! self with
  | None => (h, Raise DanglingReference)
  | Some c =>
      match next_chunk c with
      | Some _ => (h, Raise AlreadySpawned)
      | None =>
          (<[self := set_next_chunk (Some (length h)) c]>
             (h ++ [Chunk_new (max_data_bytes c)]),
           Return (length h))
      end
  end.
Proof.
  unfold _spawn_child_chunk, bind, Chunk_init, alloc.
  unfold deref at 1. destruct (h !! self) as [c|] eqn:Hc; [|done].
  destruct (next_chunk c); [done|].
  assert (Hc' : (h ++ [Chunk_new (max_data_bytes c)]) !! self = Some c)
    by (by apply lookup_app_l_Some).
  by rewrite (update_Some _ _ _ _ Hc').
Qed.

(** ** An induction principle for [extend]

    A relation between the heap before and the heap after, indexed by
    the receiver, holds of every [extend] call provided it is reflexive
    and transitive, holds of the three mutating methods, and passes from
    a child's call to its parent's. *)
Section ExtendInduction.
Variable R : addr -> heap -> heap -> Prop.
Hypothesis R_refl : forall self h, R self h h.
Hypothesis R_trans : forall self h1 h2 h3, R self h1 h2 -> R self h2 h3 -> R self h1 h3.
Hypothesis R_headers : forall self n ns sh h h' r,
  _update_headers self n ns sh h = (h', r) -> R self h h'.
Hypothesis R_fill : forall self buf h h' r,
  _fill self buf h = (h', r) -> R self h h'.
Hypothesis R_spawn : forall self h h' r,
  _spawn_child_chunk self h = (h', r) -> R self h h'.
Hypothesis R_child : forall self child h0 h1 h2,
  R self h0 h1 ->
  _spawn_child_chunk self h0 = (h1, Return child) ->
  R child h1 h2 -> R self h0 h2.

Lemma extend_ind_R depth : forall self buf ns sh lo h h' r,
  extend depth self buf ns sh lo h = (h', r) -> R self h h'.
Proof.
  induction depth as [|depth IH]; intros self buf ns sh lo h h' r;
    rewrite extend_eq; intros H.
  all: apply bind_inv in H as [(h1 & c & Hd & H) | (e & Hd & ->)];
    apply deref_inv in Hd as [-> Hd]; [|by apply R_refl].
  all: destruct (next_chunk c); [inversion H; subst; by apply R_refl|].
  all: destruct (negb (has_space c)); [inversion H; subst; by apply R_refl|].
  all: apply bind_inv in H as [(h2 & [] & Hh & H) | (e & Hh & ->)];
    [assert (R self h h2) as HR
       by (destruct (negb lo); [eauto | inversion Hh; subst; eauto])
    |destruct (negb lo); [eauto | inversion Hh; subst; eauto]].
  all: apply bind_inv in H as [(h3 & p & Hf & H) | (e & Hf & ->)];
    [|by eauto].
  all: destruct (len buf <=? p); [inversion H; subst; by eauto|].
  all: apply bind_inv in H as [(h4 & child & Hs & H) | (e & Hs & ->)];
    [|by eauto].
  - inversion H; subst. eauto.
  - assert (R self h h3) as HR3 by eauto.
    apply (R_trans _ _ _ _ HR3).
    apply bind_inv in H as [(h5 & cs & He & H) | (e & He & ->)].
    + inversion H; subst. eauto.
    + eauto.
Qed.
End ExtendInduction.

(** ** Slices and lengths *)

Lemma len_nonneg {A} (l : list A) : 0 <= len l.
Proof. unfold len. lia. Qed.

Lemma len_app {A} (l k : list A) : len (l ++ k) = len l + len k.
Proof. unfold len. rewrite length_app. lia. Qed.

Lemma slice_to_nonneg {A} (k : Z) (l : list A) :
  0 <= k -> slice_to k l = take (Z.to_nat k) l.
Proof. intros Hk. unfold slice_to. by rewrite (proj2 (Z.leb_le 0 k) Hk). Qed.

Lemma slice_from_nonneg {A} (k : Z) (l : list A) :
  0 <= k -> slice_from k l = drop (Z.to_nat k) l.
Proof. intros Hk. unfold slice_from. by rewrite (proj2 (Z.leb_le 0 k) Hk). Qed.

Lemma slice_to_all {A} (k : Z) (l : list A) : len l <= k -> slice_to k l = l.
Proof.
  intros Hk. pose proof (len_nonneg l). rewrite slice_to_nonneg by lia.
  apply take_ge. unfold len in *. lia.
Qed.

Lemma len_slice_to {A} (k : Z) (l : list A) :
  0 <= k <= len l -> len (slice_to k l) = k.
Proof.
  intros Hk. rewrite slice_to_nonneg by lia. unfold len in *.
  rewrite length_take. lia.
Qed.

Lemma len_slice_from {A} (k : Z) (l : list A) :
  0 <= k <= len l -> len (slice_from k l) = len l - k.
Proof.
  intros Hk. rewrite slice_from_nonneg by lia. unfold len in *.
  rewrite length_drop. lia.
Qed.

Lemma slice_to_from {A} (k : Z) (l : list A) :
  0 <= k -> slice_to k l ++ slice_from k l = l.
Proof.
  intros Hk. rewrite slice_to_nonneg, slice_from_nonneg by done.
  apply take_drop.
Qed.

(** ** One level of [extend], read forwards *)

Lemma has_space_room (c : Chunk) :
  constructed c -> has_space c = true ->
  0 <= num_data_bytes c < max_data_bytes c /\ 2 <= max_data_bytes c.
Proof.
  unfold constructed, has_space. intros Hc Hs. apply Z.ltb_lt in Hs.
  rewrite Hc in Hs. pose proof (len_nonneg (data c)) as Hd.
  fold (num_data_bytes c) in Hd.
  assert (HM : 2 <= max_data_bytes c).
  { destruct (Z_lt_le_dec (max_data_bytes c) 2) as [Hlt|]; [|done].
    assert (max_data_bytes c / 2 <= 0); [|lia].
    destruct (Z_lt_le_dec (max_data_bytes c) 0).
    - apply Z.lt_le_incl, Z.div_lt_upper_bound; lia.
    - rewrite Z.div_small; lia. }
  assert (max_data_bytes c / 2 < max_data_bytes c) by (apply Z.div_lt; lia).
  lia.
Qed.

(** A continuation call whose whole buffer fits returns no chunk. *)
Lemma extend_leftover_fits depth self buf ns sh h c :
  h !! self = Some c -> next_chunk c = None -> has_space c = true ->
  constructed c ->
  chunks_needed (max_data_bytes c) (len buf) =
    chunks_needed (max_data_bytes c) (len buf + num_data_bytes c) ->
  len buf <= max_data_bytes c - num_data_bytes c ->
  extend depth self buf ns sh true h =
    (<[self := set_data (data c ++ buf) c]> h, Return []).
Proof.
  intros Hc Hn Hs Hw Hk Hfit. destruct (has_space_room c Hw Hs) as [Hd HM].
  rewrite extend_eq, (bind_Return _ _ _ _ _ (deref_Some _ _ _ Hc)), Hn, Hs.
  cbn [negb]. unfold bind at 1, ret at 1.
  unfold bind. rewrite _fill_eq, Hc.
  rewrite (proj2 (Z.eqb_neq _ 0)) by lia. cbn zeta.
  rewrite (proj2 (Z.eqb_eq _ _) Hk), Z.min_l by done.
  rewrite (proj2 (Z.leb_le _ _)) by lia.
  by rewrite slice_to_all by lia.
Qed.

(** A continuation call whose buffer does not fit fills the chunk to
    capacity, spawns a child and passes the rest on. *)
Lemma extend_leftover_spawns depth self buf ns sh h c :
  h !! self = Some c -> next_chunk c = None -> has_space c = true ->
  constructed c ->
  chunks_needed (max_data_bytes c) (len buf) =
    chunks_needed (max_data_bytes c) (len buf + num_data_bytes c) ->
  max_data_bytes c - num_data_bytes c < len buf ->
  let room := max_data_bytes c - num_data_bytes c in
  let child := length h in
  let h1 := <[self := set_next_chunk (Some child)
                        (set_data (data c ++ slice_to room buf) c)]>
              (h ++ [Chunk_new (max_data_bytes c)]) in
  extend (S depth) self buf ns sh true h =
    match extend depth child (slice_from room buf) ns sh true h1 with
    | (h2, Return children) => (h2, Return (child :: children))
    | (h2, Raise e) => (h2, Raise e)
    end.
Proof.
  intros Hc Hn Hs Hw Hk Hfit room child h1.
  destruct (has_space_room c Hw Hs) as [Hd HM].
  assert (Hlt : (self < length h)%nat) by (eapply lookup_lt_Some; eauto).
  rewrite extend_eq, (bind_Return _ _ _ _ _ (deref_Some _ _ _ Hc)), Hn, Hs.
  cbn [negb]. unfold bind at 1, ret at 1.
  unfold bind at 1. rewrite _fill_eq, Hc.
  rewrite (proj2 (Z.eqb_neq _ 0)) by lia. cbn zeta.
  rewrite (proj2 (Z.eqb_eq _ _) Hk), Z.min_r by lia. fold room.
  rewrite (proj2 (Z.leb_gt _ _)) by (subst room; lia).
  unfold bind at 1. rewrite _spawn_child_chunk_eq.
  rewrite list_lookup_insert_eq by done. cbn [next_chunk set_data]. rewrite Hn.
  rewrite length_insert. cbn [max_data_bytes set_data].
  rewrite !insert_app_l by (by rewrite ?length_insert).
  rewrite list_insert_insert_eq, <- insert_app_l by done.
  unfold bind, ret. fold child. fold h1.
  by destruct (extend depth child _ ns sh true h1) as [h2 [cs|e]].
Qed.

(** ** Frame: a call touches its receiver and fresh addresses only *)

Lemma frame_refl self h : frame self h h.
Proof. by split. Qed.

Lemma frame_trans self h1 h2 h3 :
  frame self h1 h2 -> frame self h2 h3 -> frame self h1 h3.
Proof.
  intros [Hl1 H1] [Hl2 H2]. split; [lia|].
  intros a Ha Hlt. rewrite H2, H1; [done..|lia].
Qed.

Lemma frame_insert self h c : frame self h (<[self := c]> h).
Proof.
  split; [by rewrite length_insert|].
  intros a Ha _. by apply list_lookup_insert_ne.
Qed.

Lemma frame_headers self n ns sh h h' r :
  _update_headers self n ns sh h = (h', r) -> frame self h h'.
Proof.
  intros H. apply _update_headers_inv in H as [-> | (c & c' & _ & _ & ->)];
    [apply frame_refl | apply frame_insert].
Qed.

Lemma frame_fill self buf h h' r :
  _fill self buf h = (h', r) -> frame self h h'.
Proof.
  rewrite _fill_eq. destruct (h !! self) as [c|]; [|intros [= <- <-]; apply frame_refl].
  destruct (max_data_bytes c =? 0); [intros [= <- <-]; apply frame_refl|].
  cbn zeta. destruct (_ =? _); intros [= <- <-];
    [apply frame_insert | apply frame_refl].
Qed.

Lemma _spawn_child_chunk_inv self h h' r :
  _spawn_child_chunk self h = (h', r) ->
  (h' = h /\ exists e, r = Raise e) \/
  exists c, h !! self = Some c /\ next_chunk c = None /\ r = Return (length h) /\
    h' = <[self := set_next_chunk (Some (length h)) c]>
           (h ++ [Chunk_new (max_data_bytes c)]).
Proof.
  rewrite _spawn_child_chunk_eq.
  destruct (h !! self) as [c|] eqn:Hc; [|intros [= <- <-]; left; eauto].
  destruct (next_chunk c) eqn:Hn; intros [= <- <-]; [left; eauto|].
  right. by exists c.
Qed.

Lemma frame_spawn self h h' r :
  _spawn_child_chunk self h = (h', r) -> frame self h h'.
Proof.
  intros H. apply _spawn_child_chunk_inv in H
    as [[-> _] | (c & Hc & _ & _ & ->)]; [apply frame_refl|].
  split; [rewrite length_insert, length_app; lia|].
  intros a Ha Hlt. rewrite list_lookup_insert_ne by done. by apply lookup_app_l.
Qed.

Lemma frame_child self child h0 h1 h2 :
  frame self h0 h1 ->
  _spawn_child_chunk self h0 = (h1, Return child) ->
  frame child h1 h2 -> frame self h0 h2.
Proof.
  intros [Hl1 H1] Hs [Hl2 H2].
  apply _spawn_child_chunk_inv in Hs as [[_ [e [=]]] | (c & _ & _ & [= ->] & _)].
  split; [lia|]. intros a Ha Hlt. rewrite H2, H1; [done..|lia|lia].
Qed.

Lemma extend_frame depth self buf ns sh lo h h' r :
  extend depth self buf ns sh lo h = (h', r) -> frame self h h'.
Proof.
  apply (extend_ind_R frame); eauto using frame_refl, frame_trans,
    frame_headers, frame_fill, frame_spawn, frame_child.
Qed.

(** ** Ceiling arithmetic *)

Lemma chunks_needed_shift (m n : Z) :
  0 < m -> chunks_needed m (n - m) = chunks_needed m n - 1.
Proof.
  intros Hm. unfold chunks_needed.
  replace (- (n - m)) with (- n + 1 * m) by lia.
  rewrite Z.div_add by lia. lia.
Qed.

Lemma chunks_needed_gt (m n : Z) :
  0 < m -> m < n -> 2 <= chunks_needed m n.
Proof.
  intros Hm Hn. unfold chunks_needed.
  assert (- n / m < -1); [|lia].
  apply Z.div_lt_upper_bound; lia.
Qed.

Lemma chunks_needed_mono (m n n' : Z) :
  0 < m -> n <= n' -> chunks_needed m n <= chunks_needed m n'.
Proof.
  intros Hm Hn. unfold chunks_needed.
  assert (- n' / m <= - n / m); [|lia].
  apply Z.div_le_mono; lia.
Qed.

(** ** The payload of a chain after a continuation call *)

Lemma Chunk_new_has_space (m : Z) : 2 <= m -> has_space (Chunk_new m) = true.
Proof.
  intros Hm. unfold has_space, num_data_bytes, len. cbn.
  apply Z.ltb_lt. apply Z.div_str_pos. lia.
Qed.

Lemma extend_leftover_chain depth : forall self buf ns sh h c,
  h !! self = Some c -> next_chunk c = None -> has_space c = true ->
  constructed c ->
  chunks_needed (max_data_bytes c) (len buf) =
    chunks_needed (max_data_bytes c) (len buf + num_data_bytes c) ->
  chunks_needed (max_data_bytes c) (len buf) <= Z.of_nat depth + 1 ->
  exists h' children,
    extend depth self buf ns sh true h = (h', Return children) /\
    chain_data h' (self :: children) = Some (data c ++ buf).
Proof.
  induction depth as [|depth IH]; intros self buf ns sh h c Hc Hn Hs Hw Hk Hdepth.
  all: destruct (has_space_room c Hw Hs) as [Hd HM].
  all: assert (Hlt : (self < length h)%nat) by (eapply lookup_lt_Some; eauto).
  all: destruct (Z_le_gt_dec (len buf) (max_data_bytes c - num_data_bytes c))
    as [Hfit | Hover].
  all: try (eexists _, []; split;
    [by apply (extend_leftover_fits _ _ _ _ _ _ c)
    |cbn; rewrite list_lookup_insert_eq by done; cbn; by rewrite app_nil_r]).
  - (* the recursion limit is not reached under the depth hypothesis *)
    pose proof (chunks_needed_gt (max_data_bytes c) (len buf + num_data_bytes c)).
    lia.
  - rewrite (extend_leftover_spawns _ _ _ _ _ _ c) by (done || lia).
    set (room := max_data_bytes c - num_data_bytes c).
    set (child := length h).
    set (h1 := <[self := _]> (h ++ _)).
    assert (Hchild : h1 !! child = Some (Chunk_new (max_data_bytes c))).
    { subst h1 child. rewrite list_lookup_insert_ne by lia.
      by rewrite list_lookup_middle. }
    assert (Hself : h1 !! self
        = Some (set_next_chunk (Some child) (set_data (data c ++ slice_to room buf) c))).
    { subst h1. apply list_lookup_insert_eq. rewrite length_app. lia. }
    assert (Hlen : len (slice_from room buf) = len buf - room)
      by (apply len_slice_from; subst room; lia).
    destruct (IH child (slice_from room buf) ns sh h1 _ Hchild)
      as (h2 & children & He & Hchain).
    + done.
    + by apply Chunk_new_has_space.
    + done.
    + cbn [max_data_bytes Chunk_new]. f_equal.
      unfold num_data_bytes, len. cbn. lia.
    + cbn [max_data_bytes Chunk_new]. rewrite Hlen.
      replace (len buf - room) with (len buf + num_data_bytes c - max_data_bytes c)
        by (subst room; lia).
      rewrite chunks_needed_shift by lia. lia.
    + rewrite He. exists h2, (child :: children). split; [done|].
      destruct (extend_frame _ _ _ _ _ _ _ _ _ He) as [Hl2 Hfr].
      cbn [chain_data] in *. rewrite Hfr, Hself.
      * destruct (h2 !! child) as [cc|]; [|done].
        destruct (chain_data h2 children) as [d|]; [|done].
        cbn [data set_next_chunk set_data Chunk_new] in *.
        inversion Hchain as [Hcd]. rewrite Hcd.
        f_equal. rewrite <- app_assoc. f_equal.
        apply slice_to_from. subst room. lia.
      * subst child. lia.
      * subst h1. rewrite length_insert, length_app. lia.
Qed.

Lemma _validate_incoming_buffer_ok (n ns : Z) :
  0 < ns -> n mod ns = 0 -> _validate_incoming_buffer n ns = Return tt.
Proof.
  intros Hns Hmod. unfold _validate_incoming_buffer.
  rewrite (proj2 (Z.leb_gt _ _)) by lia.
  by rewrite (proj2 (Z.eqb_eq _ _) Hmod).
Qed.

Lemma _update_headers_ok self n ns sh h c :
  h !! self = Some c -> 0 < ns -> n mod ns = 0 -> sh <> [] ->
  _update_headers self n ns sh h = (<[self := with_headers sh ns n c]> h, Return tt).
Proof.
  intros Hc Hns Hmod Hsh. rewrite _update_headers_eq, _validate_incoming_buffer_ok, Hc by done.
  unfold add_shape, add_byte_position.
  rewrite (proj2 (Z.leb_gt _ _)) by lia. by rewrite bool_decide_eq_false_2 by done.
Qed.

(** A valid first call records the batch and then behaves as a
    continuation call does. *)
Lemma extend_first_eq depth self buf ns sh h c :
  h !! self = Some c -> next_chunk c = None -> has_space c = true ->
  0 < ns -> len buf mod ns = 0 -> sh <> [] ->
  extend depth self buf ns sh false h =
  extend depth self buf ns sh true (<[self := with_headers sh ns (len buf) c]> h).
Proof.
  intros Hc Hn Hs Hns Hmod Hsh.
  assert (Hlt : (self < length h)%nat) by (eapply lookup_lt_Some; eauto).
  rewrite !extend_eq.
  rewrite (bind_Return _ _ _ _ _ (deref_Some _ _ _ Hc)), Hn, Hs.
  erewrite (bind_Return _ _ (<[self := _]> h));
    [|by apply deref_Some, list_lookup_insert_eq].
  cbn [next_chunk with_headers set_index_byte_range_encoder set_index_shape_encoder].
  rewrite Hn.
  replace (has_space _) with true by (by rewrite <- Hs).
  cbn [negb]. unfold bind at 1. rewrite (_update_headers_ok _ _ _ _ _ c) by done.
  unfold bind at 2, ret at 2. done.
Qed.

(** ** Chunks only grow
 *)

Lemma chunk_grows_refl c : chunk_grows c c.
Proof. by repeat split. Qed.

Lemma heap_grows_refl h : heap_grows h h.
Proof. intros a c Hc. exists c. split; [done | apply chunk_grows_refl]. Qed.

Lemma heap_grows_trans h1 h2 h3 :
  heap_grows h1 h2 -> heap_grows h2 h3 -> heap_grows h1 h3.
Proof.
  intros H12 H23 a c Hc.
  destruct (H12 a c Hc) as (c2 & Hc2 & HM & HT & HN & HD).
  destruct (H23 a c2 Hc2) as (c3 & Hc3 & HM' & HT' & HN' & HD').
  exists c3. split; [done|]. repeat split; [congruence | congruence | auto |].
  by etrans.
Qed.

Lemma heap_grows_insert self h c c' :
  h !! self = Some c -> chunk_grows c c' -> heap_grows h (<[self := c']> h).
Proof.
  intros Hc Hg a ca Ha. destruct (decide (a = self)) as [-> | Hne].
  - exists c'. rewrite list_lookup_insert_eq by (eapply lookup_lt_Some; eauto).
    split; [done|]. congruence.
  - exists ca. rewrite list_lookup_insert_ne by done.
    split; [done | apply chunk_grows_refl].
Qed.

Lemma heap_grows_app h l : heap_grows h (h ++ l).
Proof.
  intros a c Hc. exists c. split; [by apply lookup_app_l_Some | apply chunk_grows_refl].
Qed.

Lemma heap_grows_headers self n ns sh h h' r :
  _update_headers self n ns sh h = (h', r) -> heap_grows h h'.
Proof.
  intros H. apply _update_headers_inv in H
    as [-> | (c & c' & Hc & (HM & HT & HD & HN) & ->)]; [apply heap_grows_refl|].
  apply (heap_grows_insert _ _ c); [done|].
  repeat split; [done | done | congruence | by rewrite HD].
Qed.

Lemma heap_grows_fill self buf h h' r :
  _fill self buf h = (h', r) -> heap_grows h h'.
Proof.
  rewrite _fill_eq.
  destruct (h !! self) as [c|] eqn:Hc; [|intros [= <- <-]; apply heap_grows_refl].
  destruct (max_data_bytes c =? 0); [intros [= <- <-]; apply heap_grows_refl|].
  cbn zeta. destruct (_ =? _); intros [= <- <-]; [|apply heap_grows_refl].
  apply (heap_grows_insert _ _ c); [done|].
  repeat split; [done|]. by apply prefix_app_r.
Qed.

Lemma heap_grows_spawn self h h' r :
  _spawn_child_chunk self h = (h', r) -> heap_grows h h'.
Proof.
  intros H. apply _spawn_child_chunk_inv in H
    as [[-> _] | (c & Hc & Hn & _ & ->)]; [apply heap_grows_refl|].
  eapply heap_grows_trans; [apply heap_grows_app|].
  apply (heap_grows_insert _ _ c); [by apply lookup_app_l_Some|].
  repeat split; [|done]. intros x. by rewrite Hn.
Qed.

Lemma extend_heap_grows depth self buf ns sh lo h h' r :
  extend depth self buf ns sh lo h = (h', r) -> heap_grows h h'.
Proof.
  apply (extend_ind_R (fun _ => heap_grows));
    eauto using heap_grows_refl, heap_grows_trans, heap_grows_headers,
      heap_grows_fill, heap_grows_spawn.
Qed.

(** ** The capacity bound *)

Lemma keeps_capacity_headers self n ns sh h h' r :
  _update_headers self n ns sh h = (h', r) -> keeps_capacity h h'.
Proof.
  intros H Hall. apply _update_headers_inv in H
    as [-> | (c & c' & Hc & (HM & HT & HD & HN) & ->)]; [done|].
  apply Forall_insert; [done|].
  unfold within_capacity. rewrite HD, HM.
  by apply (Forall_lookup_1 _ _ _ _ Hall Hc).
Qed.

Lemma keeps_capacity_fill self buf h h' r :
  _fill self buf h = (h', r) -> keeps_capacity h h'.
Proof.
  rewrite _fill_eq. intros H Hall.
  destruct (h !! self) as [c|] eqn:Hc; [|by inversion H; subst].
  destruct (max_data_bytes c =? 0); [by inversion H; subst|].
  cbn zeta in H. destruct (_ =? _); inversion H; subst; [|done].
  apply Forall_insert; [done|].
  pose proof (Forall_lookup_1 _ _ _ _ Hall Hc) as Hcap.
  pose proof (len_nonneg buf) as Hbuf.
  unfold within_capacity, num_data_bytes in *. cbn [data max_data_bytes set_data].
  rewrite len_app, slice_to_nonneg by lia.
  unfold len at 2. rewrite length_take. unfold len in *. lia.
Qed.

Lemma keeps_capacity_spawn self h h' r :
  _spawn_child_chunk self h = (h', r) -> keeps_capacity h h'.
Proof.
  intros H Hall. apply _spawn_child_chunk_inv in H
    as [[-> _] | (c & Hc & Hn & _ & ->)]; [done|].
  pose proof (Forall_lookup_1 _ _ _ _ Hall Hc) as Hcap.
  pose proof (len_nonneg (data c)) as Hd. unfold within_capacity in Hcap.
  apply Forall_insert; [|done].
  apply Forall_app. split; [done|].
  apply Forall_singleton. unfold within_capacity, len. cbn. lia.
Qed.

Lemma extend_keeps_capacity depth self buf ns sh lo h h' r :
  extend depth self buf ns sh lo h = (h', r) -> keeps_capacity h h'.
Proof.
  apply (extend_ind_R (fun _ => keeps_capacity)).
  - by intros ? h0 H0.
  - intros ? h1 h2 h3 H12 H23 H1. by apply H23, H12.
  - apply keeps_capacity_headers.
  - apply keeps_capacity_fill.
  - apply keeps_capacity_spawn.
  - intros ? child h0 h1 h2 H01 _ H12 H0. by apply H12, H01.
Qed.

(** ** The threshold stays half the capacity *)

Lemma keeps_constructed_refl (h : heap) : keeps_constructed h h.
Proof. by intros H. Qed.

Lemma keeps_constructed_grows (h : heap) self c c' :
  h !! self = Some c -> chunk_grows c c' -> keeps_constructed h (<[self := c']> h).
Proof.
  intros Hc (HM & HT & _) Hall. apply Forall_insert; [done|].
  unfold constructed. rewrite HT, HM. by apply (Forall_lookup_1 _ _ _ _ Hall Hc).
Qed.

Lemma keeps_constructed_headers self n ns sh h h' r :
  _update_headers self n ns sh h = (h', r) -> keeps_constructed h h'.
Proof.
  intros H. apply _update_headers_inv in H
    as [-> | (c & c' & Hc & (HM & HT & HD & HN) & ->)];
    [apply keeps_constructed_refl|].
  apply (keeps_constructed_grows _ _ c); [done|].
  repeat split; [done | done | congruence | by rewrite HD].
Qed.

Lemma keeps_constructed_fill self buf h h' r :
  _fill self buf h = (h', r) -> keeps_constructed h h'.
Proof.
  rewrite _fill_eq.
  destruct (h !! self) as [c|] eqn:Hc;
    [|intros [= <- <-]; apply keeps_constructed_refl].
  destruct (max_data_bytes c =? 0); [intros [= <- <-]; apply keeps_constructed_refl|].
  cbn zeta. destruct (_ =? _); intros [= <- <-]; [|apply keeps_constructed_refl].
  apply (keeps_constructed_grows _ _ c); [done|].
  repeat split; [done|]. by apply prefix_app_r.
Qed.

Lemma keeps_constructed_spawn self h h' r :
  _spawn_child_chunk self h = (h', r) -> keeps_constructed h h'.
Proof.
  intros H. apply _spawn_child_chunk_inv in H
    as [[-> _] | (c & Hc & Hn & _ & ->)]; [apply keeps_constructed_refl|].
  intros Hall.
  apply (keeps_constructed_grows _ _ c); [by apply lookup_app_l_Some| |].
  - repeat split; [|done]. intros x. by rewrite Hn.
  - apply Forall_app. split; [done|]. by apply Forall_singleton.
Qed.

(** Every chunk built by the constructor and touched by [extend] only
    has its threshold at half its capacity. *)
Lemma extend_keeps_constructed depth self buf ns sh lo h h' r :
  extend depth self buf ns sh lo h = (h', r) -> keeps_constructed h h'.
Proof.
  apply (extend_ind_R (fun _ => keeps_constructed)).
  - intros ? h0. apply keeps_constructed_refl.
  - intros ? h1 h2 h3 H12 H23 H1. by apply H23, H12.
  - apply keeps_constructed_headers.
  - apply keeps_constructed_fill.
  - apply keeps_constructed_spawn.
  - intros ? child h0 h1 h2 H01 _ H12 H0. by apply H12, H01.
Qed.

Lemma Chunk_init_constructed m (h : heap) :
  Forall constructed h -> Forall constructed (Chunk_init m h).1.
Proof. intros Hall. cbn. apply Forall_app. split; [done|]. by apply Forall_singleton. Qed.

(** ** Sequences of calls on one chunk *)

Lemma extend_no_space depth self buf ns sh lo h c :
  h !! self = Some c -> next_chunk c = None -> has_space c = false ->
  extend depth self buf ns sh lo h = (h, Raise NoSpaceLeft).
Proof.
  intros Hc Hn Hs.
  by rewrite extend_eq, (bind_Return _ _ _ _ _ (deref_Some _ _ _ Hc)), Hn, Hs.
Qed.

Lemma has_space_iff (c : Chunk) :
  constructed c -> (has_space c = true <-> len (data c) < max_data_bytes c / 2).
Proof.
  unfold constructed, has_space, num_data_bytes. intros ->. apply Z.ltb_lt.
Qed.


(** * The claims *)

(** C4 (amended). Capacity invariant: a chunk constructed with a
    capacity [max_data_bytes >= 0] satisfies [len(data) <= max_data_bytes]
    initially; and whenever every chunk of the heap satisfies the bound,
    every chunk of the heap still does after an [extend] call, whatever
    its arguments and whether it returns or raises, and after each of
    the methods through which [extend] changes the heap
    ([_update_headers], [_fill], [_spawn_child_chunk]); the chunks a
    call spawns are part of the resulting heap. *)
Theorem capacity_invariant :
  (forall m h, 0 <= m -> Forall within_capacity h ->
     Forall within_capacity (Chunk_init m h).1) /\
  (forall depth self buf ns sh lo h, Forall within_capacity h ->
     Forall within_capacity (extend depth self buf ns sh lo h).1) /\
  (forall self n ns sh h, Forall within_capacity h ->
     Forall within_capacity (_update_headers self n ns sh h).1) /\
  (forall self buf h, Forall within_capacity h ->
     Forall within_capacity (_fill self buf h).1) /\
  (forall self h, Forall within_capacity h ->
     Forall within_capacity (_spawn_child_chunk self h).1).
Proof.
  repeat split.
  - intros m h Hm Hall. cbn. apply Forall_app. split; [done|].
    apply Forall_singleton. unfold within_capacity, len. cbn. lia.
  - intros depth self buf ns sh lo h Hall.
    destruct (extend depth self buf ns sh lo h) as [h' r] eqn:He.
    by apply (extend_keeps_capacity _ _ _ _ _ _ _ _ _ He).
  - intros self n ns sh h Hall.
    destruct (_update_headers self n ns sh h) as [h' r] eqn:He.
    by apply (keeps_capacity_headers _ _ _ _ _ _ _ He).
  - intros self buf h Hall.
    destruct (_fill self buf h) as [h' r] eqn:He.
    by apply (keeps_capacity_fill _ _ _ _ _ He).
  - intros self h Hall.
    destruct (_spawn_child_chunk self h) as [h' r] eqn:He.
    by apply (keeps_capacity_spawn _ _ _ _ He).
Qed.

(** C4, as stated, fails for a chunk constructed with a negative
    capacity: [Chunk(-1)] holds no byte, and [0 <= -1] is false. *)
Lemma capacity_invariant_counterexample :
  ~ within_capacity (Chunk_new (-1)).
Proof. unfold within_capacity, len. cbn. lia. Qed.

Lemma capacity_invariant_witness :
  let h := (Chunk_init 100 []).1 in
  Forall within_capacity h /\
  Forall within_capacity (extend 2 0%nat (buffer_of_len 250) 5 [10; 10] false h).1 /\
  Forall within_capacity (_update_headers 0%nat 250 5 [10; 10] h).1 /\
  Forall within_capacity (_fill 0%nat (buffer_of_len 250) h).1 /\
  Forall within_capacity (_spawn_child_chunk 0%nat h).1.
Proof.
  intros h.
  assert (Hh : Forall within_capacity h)
    by (apply (proj1 capacity_invariant); [lia | constructor]).
  split; [exact Hh|].
  split; [apply (proj1 (proj2 capacity_invariant)); exact Hh|].
  split; [apply (proj1 (proj2 (proj2 capacity_invariant))); exact Hh|].
  split; [apply (proj1 (proj2 (proj2 (proj2 capacity_invariant)))); exact Hh|].
  apply (proj2 (proj2 (proj2 (proj2 capacity_invariant)))); exact Hh.
Defined.

(** C6. Seal invariant: on a chunk whose [next_chunk] is set, every
    [extend] call, continuation or not, raises the sealed-chunk
    exception, and the heap (hence the chunk's data, indexes and next
    link) is left as it was. *)
Theorem sealed_chunk_refuses_extend depth self buf ns sh lo (h : heap) c x :
  h !! self = Some c -> next_chunk c = Some x ->
  extend depth self buf ns sh lo h = (h, Raise ConnectedToNextChunk).
Proof.
  intros Hc Hn.
  by rewrite extend_eq, (bind_Return _ _ _ _ _ (deref_Some _ _ _ Hc)), Hn.
Qed.

Lemma sealed_chunk_refuses_extend_witness :
  let h := [set_next_chunk (Some 1%nat) (Chunk_new 100); Chunk_new 100] in
  extend 5 0%nat (buffer_of_len 10) 1 [10] true h = (h, Raise ConnectedToNextChunk).
Proof.
  intros h.
  apply (sealed_chunk_refuses_extend 5 0%nat (buffer_of_len 10) 1 [10] true h
           (set_next_chunk (Some 1%nat) (Chunk_new 100)) 1%nat); reflexivity.
Defined.

(** C7. Soft-threshold gating: [has_space] holds exactly when
    [len(data) < max_data_bytes // 2], and a non-continuation [extend]
    call on an unsealed chunk with [len(data) >= max_data_bytes // 2]
    (in particular with [len(data) >= max_data_bytes / 2] in the reals)
    raises the no-space exception and leaves the heap as it was. *)
Theorem soft_threshold_gating :
  (forall c, constructed c ->
     (has_space c = true <-> len (data c) < max_data_bytes c / 2)) /\
  (forall depth self buf ns sh (h : heap) c,
     h !! self = Some c -> constructed c -> next_chunk c = None ->
     max_data_bytes c / 2 <= len (data c) ->
     extend depth self buf ns sh false h = (h, Raise NoSpaceLeft)).
Proof.
  split; [apply has_space_iff|].
  intros depth self buf ns sh h c Hc Hw Hn Hfull.
  apply (extend_no_space _ _ _ _ _ _ _ c); [done..|].
  apply not_true_is_false. rewrite has_space_iff by done. lia.
Qed.

Lemma soft_threshold_gating_witness :
  let c := chunk_holding 100 (buffer_of_len 50) in
  (has_space c = true <-> len (data c) < max_data_bytes c / 2) /\
  extend 5 0%nat (buffer_of_len 10) 1 [10] false [c] = ([c], Raise NoSpaceLeft).
Proof.
  intros c. split.
  - apply (proj1 soft_threshold_gating c). reflexivity.
  - apply (proj2 soft_threshold_gating 5%nat 0%nat (buffer_of_len 10) 1 [10] [c] c);
      [reflexivity..|].
    vm_compute. discriminate.
Defined.

(** C9. Chain structure: across [extend] (whatever its arguments and
    outcome) and across each mutating method, a chunk of the heap keeps
    a [next_chunk] link that is set, together with its capacity;
    [_spawn_child_chunk] raises, changing nothing, on a chunk that
    already has a child; on a chunk without one it allocates exactly one
    new chunk and returns it: the child has [max_data_bytes] equal to
    its parent's (and the threshold that goes with it), holds no data,
    has no run in either index and no successor, and is now the
    parent's [next_chunk]; the parent keeps its capacity and its
    data. *)
Theorem chain_structure :
  (forall depth self buf ns sh lo h, heap_grows h (extend depth self buf ns sh lo h).1) /\
  (forall self n ns sh h, heap_grows h (_update_headers self n ns sh h).1) /\
  (forall self buf h, heap_grows h (_fill self buf h).1) /\
  (forall self h, heap_grows h (_spawn_child_chunk self h).1) /\
  (forall m h, heap_grows h (Chunk_init m h).1) /\
  (forall self (h : heap) c x, h !! self = Some c -> next_chunk c = Some x ->
     _spawn_child_chunk self h = (h, Raise AlreadySpawned)) /\
  (forall self (h : heap) c, h !! self = Some c -> next_chunk c = None ->
     exists h' child cc p,
       _spawn_child_chunk self h = (h', Return child) /\
       h !! child = None /\ length h' = S (length h) /\
       h' !! child = Some cc /\
       max_data_bytes cc = max_data_bytes c /\
       min_data_bytes_target cc = max_data_bytes c / 2 /\
       data cc = [] /\
       index_shape_encoder cc = [] /\ index_byte_range_encoder cc = [] /\
       next_chunk cc = None /\
       cc = Chunk_new (max_data_bytes c) /\
       h' !! self = Some p /\ next_chunk p = Some child /\
       max_data_bytes p = max_data_bytes c /\ data p = data c).
Proof.
  repeat split.
  - intros depth self buf ns sh lo h.
    destruct (extend depth self buf ns sh lo h) as [h' r] eqn:He.
    apply (extend_heap_grows _ _ _ _ _ _ _ _ _ He).
  - intros self n ns sh h.
    destruct (_update_headers self n ns sh h) as [h' r] eqn:He.
    apply (heap_grows_headers _ _ _ _ _ _ _ He).
  - intros self buf h. destruct (_fill self buf h) as [h' r] eqn:He.
    apply (heap_grows_fill _ _ _ _ _ He).
  - intros self h. destruct (_spawn_child_chunk self h) as [h' r] eqn:He.
    apply (heap_grows_spawn _ _ _ _ He).
  - intros m h. apply heap_grows_app.
  - intros self h c x Hc Hn. by rewrite _spawn_child_chunk_eq, Hc, Hn.
  - intros self h c Hc Hn.
    assert (Hlt : (self < length h)%nat) by (eapply lookup_lt_Some; eauto).
    eexists _, _, (Chunk_new (max_data_bytes c)), _.
    rewrite _spawn_child_chunk_eq, Hc, Hn.
    split; [done|]. split; [by apply lookup_ge_None_2|].
    split; [rewrite length_insert, length_app; cbn; lia|].
    split; [rewrite list_lookup_insert_ne by lia; by rewrite list_lookup_middle|].
    do 7 (split; [reflexivity|]).
    split; [apply list_lookup_insert_eq; rewrite length_app; lia|].
    done.
Qed.

Lemma chain_structure_witness :
  let h := [set_next_chunk (Some 1%nat) (Chunk_new 100); Chunk_new 100] in
  _spawn_child_chunk 0%nat h = (h, Raise AlreadySpawned) /\
  exists h' child cc p,
    _spawn_child_chunk 1%nat h = (h', Return child) /\
    h !! child = None /\ length h' = S (length h) /\
    h' !! child = Some cc /\
    max_data_bytes cc = max_data_bytes (Chunk_new 100) /\
    min_data_bytes_target cc = max_data_bytes (Chunk_new 100) / 2 /\
    data cc = [] /\
    index_shape_encoder cc = [] /\ index_byte_range_encoder cc = [] /\
    next_chunk cc = None /\
    cc = Chunk_new (max_data_bytes (Chunk_new 100)) /\
    h' !! 1%nat = Some p /\ next_chunk p = Some child /\
    max_data_bytes p = max_data_bytes (Chunk_new 100) /\
    data p = data (Chunk_new 100).
Proof.
  intros h. split.
  - apply (proj1 (proj2 (proj2 (proj2 (proj2 (proj2 chain_structure))))) 0%nat h
             (set_next_chunk (Some 1%nat) (Chunk_new 100)) 1%nat); reflexivity.
  - apply (proj2 (proj2 (proj2 (proj2 (proj2 (proj2 chain_structure))))) 1%nat h
             (Chunk_new 100)); reflexivity.
Defined.





(** A continuation call never raises [ValueError]: nothing validates
    the batch there. *)
Lemma extend_leftover_no_ValueError depth : forall self buf ns sh h h' r m,
  extend depth self buf ns sh true h = (h', r) -> r <> Raise (ValueError m).
Proof.
  induction depth as [|depth IH]; intros self buf ns sh h h' r m;
    rewrite extend_eq; intros H.
  all: apply bind_inv in H as [(h1 & c & Hd & H) | (e & Hd & ->)];
    apply deref_inv in Hd as [-> Hd];
    [|by destruct Hd as [(? & _ & [=]) | [_ [= ->]]]].
  all: destruct (next_chunk c); [by inversion H|].
  all: destruct (negb (has_space c)); [by inversion H|].
  all: cbn [negb] in H; unfold bind at 1, ret at 1 in H.
  all: apply bind_inv in H as [(h3 & p & Hf & H) | (e & Hf & ->)].
  all: rewrite _fill_eq in Hf; destruct (h !! self) as [c0|]; [|by inversion Hf].
  all: destruct (max_data_bytes c0 =? 0); [by inversion Hf|].
  all: try (by inversion Hf).
  all: destruct (len buf <=? p); [by inversion H|].
  all: apply bind_inv in H as [(h4 & child & Hs & H) | (e & Hs & ->)].
  all: rewrite _spawn_child_chunk_eq in Hs;
    destruct (h3 !! self) as [c3|]; [|by inversion Hs];
    destruct (next_chunk c3); try (by inversion Hs).
  - by inversion H.
  - apply bind_inv in H as [(h5 & cs & He & H) | (e & He & ->)];
      [by inversion H | by eapply IH].
Qed.

(** C8. Batch validation: a non-continuation [extend] call on an
    unsealed chunk with space raises [ValueError] (the invalid-batch
    error) if and only if [num_samples <= 0] or [len(buffer)] is not
    divisible by [num_samples]; and when it does, the heap is as it was
    before the call: no header run appended, no payload byte copied. *)
Theorem batch_validation depth self buf ns sh (h : heap) c :
  h !! self = Some c -> next_chunk c = None -> has_space c = true ->
  ((exists m, (extend depth self buf ns sh false h).2 = Raise (ValueError m)) <->
   (ns <= 0 \/ len buf mod ns <> 0)) /\
  (ns <= 0 \/ len buf mod ns <> 0 -> (extend depth self buf ns sh false h).1 = h).
Proof.
  intros Hc Hn Hs.
  assert (Hinvalid : ns <= 0 \/ len buf mod ns <> 0 ->
            exists m, extend depth self buf ns sh false h = (h, Raise (ValueError m))).
  { intros Hbad. rewrite extend_eq, (bind_Return _ _ _ _ _ (deref_Some _ _ _ Hc)), Hn, Hs.
    cbn [negb]. unfold bind at 1. rewrite _update_headers_eq.
    unfold _validate_incoming_buffer.
    destruct (ns <=? 0) eqn:Hle; [by eexists|].
    apply Z.leb_gt in Hle. destruct Hbad as [? | Hmod]; [lia|].
    rewrite (proj2 (Z.eqb_neq _ _) Hmod). by eexists. }
  split; [split|].
  - intros [m Hm].
    destruct (Z_le_gt_dec ns 0) as [|Hpos]; [by left|]. right. intros Hmod.
    destruct (decide (sh = [])) as [-> | Hsh].
    + revert Hm. rewrite extend_eq, (bind_Return _ _ _ _ _ (deref_Some _ _ _ Hc)), Hn, Hs.
      cbn [negb]. unfold bind at 1.
      rewrite _update_headers_eq, _validate_incoming_buffer_ok, Hc by (done || lia).
      unfold add_shape. rewrite bool_decide_eq_true_2, orb_true_r by done. done.
    + revert Hm. rewrite (extend_first_eq _ _ _ _ _ _ c) by (done || lia).
      destruct (extend depth self buf ns sh true _) as [h' r] eqn:He.
      cbn. by apply (extend_leftover_no_ValueError _ _ _ _ _ _ _ _ _ He).
  - intros Hbad. destruct (Hinvalid Hbad) as [m ->]. by exists m.
  - intros Hbad. by destruct (Hinvalid Hbad) as [m ->].
Qed.

(** Scenario D: three samples cannot share a 10-byte buffer. *)
Lemma batch_validation_witness :
  (exists m, (extend 5 0%nat (buffer_of_len 10) 3 [10] false [Chunk_new 100]).2
             = Raise (ValueError m)) /\
  (extend 5 0%nat (buffer_of_len 10) 3 [10] false [Chunk_new 100]).1 = [Chunk_new 100].
Proof.
  destruct (batch_validation 5 0%nat (buffer_of_len 10) 3 [10] [Chunk_new 100]
              (Chunk_new 100) eq_refl eq_refl eq_refl) as [Hiff Hheap].
  assert (Hbad : 3 <= 0 \/ len (buffer_of_len 10) mod 3 <> 0)
    by (right; vm_compute; discriminate).
  split; [by apply Hiff | by apply Hheap].
Defined.




(** On an empty receiving chunk the chain holds exactly the buffer. *)
Lemma extend_first_chain_empty depth self buf ns sh (h : heap) c :
  h !! self = Some c -> constructed c -> next_chunk c = None -> has_space c = true ->
  data c = [] -> 0 < ns -> len buf mod ns = 0 -> sh <> [] ->
  chunks_needed (max_data_bytes c) (len buf) <= Z.of_nat depth + 1 ->
  exists h' children,
    extend depth self buf ns sh false h = (h', Return children) /\
    chain_data h' (self :: children) = Some buf.
Proof.
  intros Hc Hw Hn Hs Hd Hns Hmod Hsh Hdepth.
  assert (Hlt : (self < length h)%nat) by (eapply lookup_lt_Some; eauto).
  rewrite (extend_first_eq _ _ _ _ _ _ c) by done.
  destruct (extend_leftover_chain depth self buf ns sh
              (<[self := with_headers sh ns (len buf) c]> h)
              (with_headers sh ns (len buf) c)) as (h' & cs & He & Hch); try done.
  - by apply list_lookup_insert_eq.
  - unfold num_data_bytes, len. cbn [data with_headers set_index_byte_range_encoder
      set_index_shape_encoder]. rewrite Hd. cbn. by rewrite Z.add_0_r.
  - exists h', cs. split; [done|]. rewrite Hch. cbn. by rewrite Hd.
Qed.

(** When the two chunk counts differ, [_fill] copies nothing and still
    reports the bytes that would have fit. *)
Lemma _fill_mismatch self buf (h : heap) c :
  h !! self = Some c -> max_data_bytes c <> 0 ->
  chunks_needed (max_data_bytes c) (len buf) <>
    chunks_needed (max_data_bytes c) (len buf + num_data_bytes c) ->
  _fill self buf h =
    (h, Return (Z.min (len buf) (max_data_bytes c - num_data_bytes c))).
Proof.
  intros Hc HM Hk. rewrite _fill_eq, Hc.
  rewrite (proj2 (Z.eqb_neq _ 0)) by done. cbn zeta.
  by rewrite (proj2 (Z.eqb_neq _ _) Hk).
Qed.

(** C2 (the code at the failing input). Scenario B: capacity 100, 40
    bytes held, an 80-byte buffer.  The chunk counts differ (1 and 2);
    [_fill] leaves the 40 bytes alone but reports 60 bytes processed, so
    [extend] forwards only [buffer[60:]]: the one spawned child holds
    the last 20 bytes of the buffer, and the first 60 are in no chunk. *)
Theorem scenario_B_forwards_20_bytes :
  let held := buffer_of_len 40 in
  let buf := buffer_of_len 80 in
  let h := [chunk_holding 100 held] in
  _fill 0%nat buf h = (h, Return 60) /\
  exists parent child,
    extend 5 0%nat buf 1 [80] false h = ([parent; child], Return [1%nat]) /\
    data parent = held /\
    data child = drop 60 buf /\
    len (data child) = 20 /\
    chain_data [parent; child] [0%nat; 1%nat] = Some (held ++ drop 60 buf).
Proof.
  cbv zeta. split; [reflexivity|].
  eexists _, _. split; [vm_compute; reflexivity|].
  repeat split.
Qed.

(** C3. Scenario C: capacity 100, an empty chunk, a 250-byte buffer of
    5 samples of shape (10, 10), a recursion limit of at least two
    nested calls.  The call returns exactly two new chunks; the
    receiving chunk holds the first 100 bytes, the children the next
    100 and the last 50; the receiving chunk has the one shape run
    ((10, 10), 5) and the one byte-range run (50, 5), and the indexes
    of both children are empty. *)
Theorem scenario_C_three_chunks depth self buf (h : heap) :
  h !! self = Some (Chunk_new 100) -> length buf = 250%nat -> (2 <= depth)%nat ->
  let a1 := length h in
  let a2 := S (length h) in
  exists h' p c1 c2,
    extend depth self buf 5 [10; 10] false h = (h', Return [a1; a2]) /\
    length h' = S (S (length h)) /\
    h' !! self = Some p /\ h' !! a1 = Some c1 /\ h' !! a2 = Some c2 /\
    (data p = take 100 buf /\ len (data p) = 100) /\
    (data c1 = take 100 (drop 100 buf) /\ len (data c1) = 100) /\
    (data c2 = drop 200 buf /\ len (data c2) = 50) /\
    (next_chunk p = Some a1 /\ next_chunk c1 = Some a2 /\ next_chunk c2 = None) /\
    (index_shape_encoder p = [([10; 10], 5)] /\
     index_byte_range_encoder p = [(50, 5)]) /\
    (index_shape_encoder c1 = [] /\ index_byte_range_encoder c1 = []) /\
    (index_shape_encoder c2 = [] /\ index_byte_range_encoder c2 = []).
Proof.
  intros Hc Hbuf Hdepth a1 a2.
  destruct depth as [|[|depth]]; [lia..|].
  assert (Hlt : (self < length h)%nat) by (eapply lookup_lt_Some; eauto).
  assert (Hlen : len buf = 250) by (unfold len; rewrite Hbuf; reflexivity).
  rewrite (extend_first_eq _ _ _ _ _ _ (Chunk_new 100))
    by (done || rewrite Hlen; done).
  rewrite Hlen.
  set (c0 := with_headers [10; 10] 5 250 (Chunk_new 100)).
  rewrite (extend_leftover_spawns _ _ _ _ _ _ c0);
    [|by apply list_lookup_insert_eq|done|done|done|by rewrite Hlen|by rewrite Hlen].
  cbv zeta. rewrite length_insert. fold a1.
  change (max_data_bytes c0 - num_data_bytes c0) with 100.
  change (max_data_bytes c0) with 100.
  set (p := set_next_chunk (Some a1) (set_data (data c0 ++ slice_to 100 buf) c0)).
  set (h1 := <[self := p]> (<[self := c0]> h ++ [Chunk_new 100])).
  assert (Hlen1 : len (slice_from 100 buf) = 150)
    by (rewrite len_slice_from; lia).
  assert (Hl1 : length h1 = a2)
    by (subst h1; rewrite length_insert, length_app, length_insert; cbn; lia).
  assert (Ha1 : h1 !! a1 = Some (Chunk_new 100)).
  { subst h1. rewrite list_lookup_insert_ne by (subst a1; lia).
    apply list_lookup_middle. by rewrite length_insert. }
  rewrite (extend_leftover_spawns _ _ _ _ _ _ (Chunk_new 100));
    [|done|done|done|done|by rewrite Hlen1|by rewrite Hlen1].
  cbv zeta. rewrite Hl1.
  change (max_data_bytes (Chunk_new 100) - num_data_bytes (Chunk_new 100)) with 100.
  change (max_data_bytes (Chunk_new 100)) with 100.
  set (c1 := set_next_chunk (Some a2)
               (set_data (data (Chunk_new 100) ++ slice_to 100 (slice_from 100 buf))
                  (Chunk_new 100))).
  set (h2 := <[a1 := c1]> (h1 ++ [Chunk_new 100])).
  assert (Hlen2 : len (slice_from 100 (slice_from 100 buf)) = 50)
    by (rewrite len_slice_from; lia).
  assert (Ha2 : h2 !! a2 = Some (Chunk_new 100)).
  { subst h2. rewrite list_lookup_insert_ne by (subst a1 a2; lia).
    by apply list_lookup_middle. }
  rewrite (extend_leftover_fits _ _ _ _ _ _ (Chunk_new 100));
    [|done|done|done|done|by rewrite Hlen2|by rewrite Hlen2].
  set (c2 := set_data (data (Chunk_new 100) ++ slice_from 100 (slice_from 100 buf))
               (Chunk_new 100)).
  exists (<[a2 := c2]> h2), p, c1, c2.
  assert (Hl2 : length h2 = S a2)
    by (subst h2; rewrite length_insert, length_app, Hl1; cbn; lia).
  split; [done|].
  split; [rewrite length_insert; subst a2; lia|].
  split.
  { rewrite list_lookup_insert_ne by (subst a2; lia). subst h2.
    rewrite list_lookup_insert_ne by (subst a1; lia).
    rewrite lookup_app_l by lia. subst h1.
    apply list_lookup_insert_eq. rewrite length_app, length_insert. lia. }
  split.
  { rewrite list_lookup_insert_ne by (subst a1 a2; lia). subst h2.
    apply list_lookup_insert_eq. rewrite length_app. lia. }
  split; [apply list_lookup_insert_eq; lia|].
  subst p c1 c2. cbn [data set_next_chunk set_data Chunk_new with_headers
    set_index_byte_range_encoder set_index_shape_encoder c0 app
    next_chunk index_shape_encoder index_byte_range_encoder].
  rewrite !slice_to_nonneg, !slice_from_nonneg by lia.
  change (Z.to_nat 100) with 100%nat. rewrite drop_drop.
  unfold len. rewrite !length_take, !length_drop, Hbuf.
  repeat split.
Qed.

Lemma scenario_C_three_chunks_witness :
  exists h' p c1 c2,
    extend 2 0%nat (buffer_of_len 250) 5 [10; 10] false [Chunk_new 100]
      = (h', Return [1%nat; 2%nat]) /\
    length h' = 3%nat /\
    h' !! 0%nat = Some p /\ h' !! 1%nat = Some c1 /\ h' !! 2%nat = Some c2 /\
    (data p = take 100 (buffer_of_len 250) /\ len (data p) = 100) /\
    (data c1 = take 100 (drop 100 (buffer_of_len 250)) /\ len (data c1) = 100) /\
    (data c2 = drop 200 (buffer_of_len 250) /\ len (data c2) = 50) /\
    (next_chunk p = Some 1%nat /\ next_chunk c1 = Some 2%nat /\ next_chunk c2 = None) /\
    (index_shape_encoder p = [([10; 10], 5)] /\
     index_byte_range_encoder p = [(50, 5)]) /\
    (index_shape_encoder c1 = [] /\ index_byte_range_encoder c1 = []) /\
    (index_shape_encoder c2 = [] /\ index_byte_range_encoder c2 = []).
Proof.
  apply (scenario_C_three_chunks 2 0%nat (buffer_of_len 250) [Chunk_new 100]);
    [reflexivity | reflexivity | lia].
Defined.

(** C5 (amended). Serialization: [Chunk.frombuffer] never returns a
    chunk.  Whatever the inherited loader does with the blob, the call
    raises; when the inherited loader rebuilds an instance, as it does
    for every blob [tobytes] produces, the call raises
    [NotImplementedError] and the instance is dropped. *)
Theorem frombuffer_raises (super_frombuffer : Npz -> outcome Chunk)
    (default_chunk_max_size : Z) (c : Chunk) :
  (exists e, Chunk_frombuffer super_frombuffer (tobytes c) = Raise e) /\
  Chunk_frombuffer (Cachable_frombuffer default_chunk_max_size) (tobytes c)
    = Raise NotImplementedError.
Proof.
  split; [|reflexivity].
  unfold Chunk_frombuffer. destruct (super_frombuffer (tobytes c)); eauto.
Qed.

(** C5, as stated, fails already for the empty chunk: the round trip
    does not succeed. *)
Lemma frombuffer_roundtrip_counterexample :
  ~ exists c',
      Chunk_frombuffer (Cachable_frombuffer 100) (tobytes (Chunk_new 100)) = Return c' /\
      index_shape_encoder c' = index_shape_encoder (Chunk_new 100) /\
      index_byte_range_encoder c' = index_byte_range_encoder (Chunk_new 100) /\
      data c' = data (Chunk_new 100).
Proof. intros (c' & H & _). discriminate H. Qed.

(** * Further properties of the chunk engine *)

(** ** More ceiling arithmetic *)

Lemma chunks_needed_0 (m : Z) : chunks_needed m 0 = 0.
Proof. unfold chunks_needed. cbn. by rewrite Zdiv_0_l. Qed.

Lemma chunks_needed_small (m n : Z) :
  0 < n <= m -> chunks_needed m n = 1.
Proof.
  intros Hn. unfold chunks_needed.
  assert (- n / m = -1); [|lia].
  symmetry. apply (Z.div_unique_pos (- n) m (-1) (m - n)); lia.
Qed.

Lemma chunks_needed_bounds (m n : Z) :
  0 < m -> (chunks_needed m n - 1) * m < n <= chunks_needed m n * m.
Proof.
  intros Hm. unfold chunks_needed.
  pose proof (Z.div_mod (- n) m ltac:(lia)) as Hdm.
  pose proof (Z.mod_pos_bound (- n) m Hm) as Hr.
  nia.
Qed.

Lemma chunks_needed_least (m n k : Z) :
  0 < m -> n <= k * m -> chunks_needed m n <= k.
Proof.
  intros Hm Hk. pose proof (chunks_needed_bounds m n Hm) as [Hlo _]. nia.
Qed.

(** When the two counts [_fill] compares differ on a non-empty buffer,
    the buffer is larger than the room left in the chunk. *)
Lemma mismatch_overflows (m n d : Z) :
  0 < m -> 0 <= d -> 0 < n ->
  chunks_needed m n <> chunks_needed m (n + d) -> m - d < n.
Proof.
  intros Hm Hd Hn Hk. destruct (Z_lt_le_dec (m - d) n) as [|Hle]; [done|].
  exfalso. apply Hk. rewrite !chunks_needed_small; lia.
Qed.

(** ** The remaining cases of one level of [extend] *)

Lemma slice_to_nil {A} (k : Z) : slice_to k (@nil A) = [].
Proof. unfold slice_to. destruct (0 <=? k); apply take_nil. Qed.

Lemma set_data_same (c : Chunk) : set_data (data c) c = c.
Proof. by destruct c. Qed.

(** A continuation call with an empty buffer changes nothing. *)
Lemma extend_leftover_empty_buffer depth self ns sh (h : heap) c :
  h !! self = Some c -> next_chunk c = None -> has_space c = true ->
  constructed c ->
  extend depth self [] ns sh true h = (h, Return []).
Proof.
  intros Hc Hn Hs Hw. destruct (has_space_room c Hw Hs) as [Hd HM].
  rewrite extend_eq, (bind_Return _ _ _ _ _ (deref_Some _ _ _ Hc)), Hn, Hs.
  cbn [negb]. unfold bind at 1, ret at 1.
  unfold bind. rewrite _fill_eq, Hc.
  rewrite (proj2 (Z.eqb_neq _ 0)) by lia. cbn zeta.
  change (len (@nil byte)) with 0.
  rewrite Z.min_l by lia. cbn [Z.leb Z.compare].
  rewrite slice_to_nil, app_nil_r, set_data_same, list_insert_id by done.
  by destruct (_ =? _).
Qed.

(** A continuation call for which the two chunk counts differ copies
    nothing, spawns a child and forwards the buffer without the bytes
    that would have fit. *)
Lemma extend_leftover_mismatch_spawns depth self buf ns sh (h : heap) c :
  h !! self = Some c -> next_chunk c = None -> has_space c = true ->
  constructed c -> 0 < len buf ->
  chunks_needed (max_data_bytes c) (len buf) <>
    chunks_needed (max_data_bytes c) (len buf + num_data_bytes c) ->
  let room := max_data_bytes c - num_data_bytes c in
  let child := length h in
  let h1 := <[self := set_next_chunk (Some child) c]>
              (h ++ [Chunk_new (max_data_bytes c)]) in
  extend (S depth) self buf ns sh true h =
    match extend depth child (slice_from room buf) ns sh true h1 with
    | (h2, Return children) => (h2, Return (child :: children))
    | (h2, Raise e) => (h2, Raise e)
    end.
Proof.
  intros Hc Hn Hs Hw Hpos Hk room child h1.
  destruct (has_space_room c Hw Hs) as [Hd HM].
  assert (Hover : room < len buf)
    by (apply (mismatch_overflows _ _ (num_data_bytes c)); (done || lia)).
  assert (Hlt : (self < length h)%nat) by (eapply lookup_lt_Some; eauto).
  rewrite extend_eq, (bind_Return _ _ _ _ _ (deref_Some _ _ _ Hc)), Hn, Hs.
  cbn [negb]. unfold bind at 1, ret at 1.
  unfold bind at 1. rewrite (_fill_mismatch _ _ _ c) by (done || lia).
  rewrite Z.min_r by (subst room; lia). fold room.
  rewrite (proj2 (Z.leb_gt _ _)) by lia.
  unfold bind at 1. rewrite _spawn_child_chunk_eq, Hc, Hn.
  unfold bind, ret. fold child. fold h1.
  by destruct (extend depth child _ ns sh true h1) as [h2 [cs|e]].
Qed.

(** ** The chain a continuation call builds from a new chunk *)

Lemma Chunk_new_constructed (m : Z) : constructed (Chunk_new m).
Proof. done. Qed.

Lemma extend_fresh_fits depth a buf ns sh (h : heap) m :
  h !! a = Some (Chunk_new m) -> 2 <= m -> len buf <= m ->
  exists h' k,
    extend depth a buf ns sh true h = (h', Return (seq (length h) k)) /\
    length h' = (length h + k)%nat /\
    packed h' m a buf (seq (length h) k) /\
    Forall (fun b => exists c, h' !! b = Some c /\ no_headers c)
      (a :: seq (length h) k).
Proof.
  intros Ha Hm Hfit.
  assert (Hlt : (a < length h)%nat) by (eapply lookup_lt_Some; eauto).
  exists (<[a := set_data (data (Chunk_new m) ++ buf) (Chunk_new m)]> h), 0%nat.
  split.
  { apply (extend_leftover_fits _ _ _ _ _ _ (Chunk_new m));
      [done | done | by apply Chunk_new_has_space | done
      | f_equal; unfold num_data_bytes, len; cbn; lia
      | unfold num_data_bytes, len in *; cbn; lia]. }
  split; [rewrite length_insert; lia|].
  split.
  { cbn. eexists. split; [by apply list_lookup_insert_eq|]. by repeat split. }
  apply Forall_singleton. eexists. split; [by apply list_lookup_insert_eq | by split].
Qed.

Lemma extend_fresh_packed depth : forall a buf ns sh (h : heap) m,
  h !! a = Some (Chunk_new m) -> 2 <= m ->
  chunks_needed m (len buf) <= Z.of_nat depth + 1 ->
  exists h' k,
    extend depth a buf ns sh true h = (h', Return (seq (length h) k)) /\
    length h' = (length h + k)%nat /\
    packed h' m a buf (seq (length h) k) /\
    Forall (fun b => exists c, h' !! b = Some c /\ no_headers c)
      (a :: seq (length h) k).
Proof.
  induction depth as [|depth IH]; intros a buf ns sh h m Ha Hm Hdepth.
  all: assert (Hlt : (a < length h)%nat) by (eapply lookup_lt_Some; eauto).
  all: assert (Hagree : chunks_needed (max_data_bytes (Chunk_new m)) (len buf) =
      chunks_needed (max_data_bytes (Chunk_new m))
        (len buf + num_data_bytes (Chunk_new m)))
    by (f_equal; unfold num_data_bytes, len; cbn; lia).
  all: destruct (Z_le_gt_dec (len buf) m) as [Hfit | Hover].
  all: try (by apply extend_fresh_fits).
  - pose proof (chunks_needed_gt m (len buf)). lia.
  - rewrite (extend_leftover_spawns _ _ _ _ _ _ (Chunk_new m));
      [|done|done|by apply Chunk_new_has_space|done|done
       |unfold num_data_bytes, len in *; cbn; lia].
    cbv zeta.
    replace (max_data_bytes (Chunk_new m) - num_data_bytes (Chunk_new m)) with m
      by (unfold num_data_bytes, len; cbn; lia).
    change (max_data_bytes (Chunk_new m)) with m.
    set (child := length h).
    set (p := set_next_chunk (Some child)
                (set_data (data (Chunk_new m) ++ slice_to m buf) (Chunk_new m))).
    set (h1 := <[a := p]> (h ++ [Chunk_new m])).
    assert (Hl1 : length h1 = S child)
      by (subst h1 child; rewrite length_insert, length_app; cbn; lia).
    assert (Hchild : h1 !! child = Some (Chunk_new m)).
    { subst h1 child. rewrite list_lookup_insert_ne by lia.
      by rewrite list_lookup_middle. }
    assert (Hself : h1 !! a = Some p).
    { subst h1. apply list_lookup_insert_eq. rewrite length_app. lia. }
    assert (Hlen : len (slice_from m buf) = len buf - m)
      by (apply len_slice_from; lia).
    destruct (IH child (slice_from m buf) ns sh h1 m Hchild Hm)
      as (h2 & k & He & Hl2 & Hpacked & Hnone).
    { rewrite Hlen, chunks_needed_shift by lia. lia. }
    rewrite He, Hl1. exists h2, (S k).
    destruct (extend_frame _ _ _ _ _ _ _ _ _ He) as [_ Hfr].
    assert (Hself2 : h2 !! a = Some p)
      by (rewrite Hfr; [done | subst child; lia | lia]).
    rewrite Hl1 in Hpacked, Hnone.
    split; [done|]. split; [lia|]. split.
    + cbn [seq packed]. split; [|done].
      exists p. split; [done|]. split; [done|]. split; [done|]. split; [done|]. lia.
    + constructor; [exists p; by split | done].
Qed.

(** ** What a packed chain tells *)

Lemma packed_chain_data (h : heap) m : forall children a bytes,
  0 <= m -> packed h m a bytes children ->
  chain_data h (a :: children) = Some bytes.
Proof.
  induction children as [|b rest IH]; intros a bytes Hm Hp; cbn [packed] in Hp.
  - destruct Hp as (c & Hc & _ & _ & Hd & _). cbn. rewrite Hc, Hd.
    by rewrite app_nil_r.
  - destruct Hp as [(c & Hc & _ & _ & Hd & _) Hrest].
    change (chain_data h (a :: b :: rest))
      with (match h !! a, chain_data h (b :: rest) with
            | Some c, Some d => Some (data c ++ d)
            | _, _ => None
            end).
    rewrite Hc, (IH b _ Hm Hrest), Hd. by rewrite slice_to_from.
Qed.

Lemma packed_linked (h : heap) m : forall children a bytes,
  packed h m a bytes children -> linked h a children.
Proof.
  induction children as [|b rest IH]; intros a bytes Hp; cbn [packed linked] in *.
  - destruct Hp as (c & Hc & _ & Hn & _). eauto.
  - destruct Hp as [(c & Hc & _ & Hn & _) Hrest]. split; [eauto|]. eauto.
Qed.

Lemma packed_count (h : heap) m : forall children a bytes,
  0 < m -> packed h m a bytes children ->
  Z.of_nat (length children) = Z.max 0 (chunks_needed m (len bytes) - 1).
Proof.
  induction children as [|b rest IH]; intros a bytes Hm Hp; cbn [packed] in Hp.
  - destruct Hp as (c & _ & _ & _ & _ & Hle).
    pose proof (chunks_needed_least m (len bytes) 1 Hm). cbn. lia.
  - destruct Hp as [(c & _ & _ & _ & _ & Hlt) Hrest].
    pose proof (IH b _ Hm Hrest) as Hk.
    rewrite len_slice_from, chunks_needed_shift in Hk by lia.
    pose proof (chunks_needed_gt m (len bytes) Hm Hlt).
    cbn [length]. lia.
Qed.

Lemma packed_chunks (h : heap) m : forall children a bytes,
  0 <= m -> packed h m a bytes children ->
  Forall (fun b => exists c, h !! b = Some c /\ max_data_bytes c = m /\
                     len (data c) <= m /\
                     (is_Some (next_chunk c) -> len (data c) = m))
    (a :: children).
Proof.
  induction children as [|b rest IH]; intros a bytes Hm Hp; cbn [packed] in Hp.
  - destruct Hp as (c & Hc & HM & Hn & Hd & Hle).
    apply Forall_singleton. exists c. rewrite Hd, Hn.
    repeat split; [done..|]. by intros [? [=]].
  - destruct Hp as [(c & Hc & HM & Hn & Hd & Hlt) Hrest].
    constructor; [|by apply (IH b _ Hm Hrest)].
    exists c. rewrite Hd, len_slice_to by lia. repeat split; (done || lia).
Qed.

(** The recursive call of [extend], on the child it has just spawned. *)
Lemma extend_child_chain depth self p rest_buf ns sh (h0 : heap) m :
  (self < length h0)%nat -> 2 <= m ->
  chunks_needed m (len rest_buf) <= Z.of_nat depth + 1 ->
  let child := length h0 in
  let h1 := <[self := p]> (h0 ++ [Chunk_new m]) in
  exists h' k,
    match extend depth child rest_buf ns sh true h1 with
    | (h2, Return children) => (h2, Return (child :: children))
    | (h2, Raise e) => (h2, Raise e)
    end = (h', Return (seq (length h0) (S k))) /\
    length h' = (length h0 + S k)%nat /\
    h' !! self = Some p /\
    packed h' m child rest_buf (seq (S child) k) /\
    Forall (fun b => exists c, h' !! b = Some c /\ no_headers c)
      (seq (length h0) (S k)).
Proof.
  intros Hlt Hm Hdepth child h1.
  assert (Hl1 : length h1 = S child)
    by (subst h1 child; rewrite length_insert, length_app; cbn; lia).
  assert (Hchild : h1 !! child = Some (Chunk_new m)).
  { subst h1 child. rewrite list_lookup_insert_ne by lia.
    by rewrite list_lookup_middle. }
  assert (Hself : h1 !! self = Some p).
  { subst h1. apply list_lookup_insert_eq. rewrite length_app. lia. }
  destruct (extend_fresh_packed depth child rest_buf ns sh h1 m Hchild Hm Hdepth)
    as (h2 & k & He & Hl2 & Hpacked & Hnone).
  destruct (extend_frame _ _ _ _ _ _ _ _ _ He) as [_ Hfr].
  rewrite He, Hl1 in *. exists h2, k.
  split; [done|]. split; [subst child; lia|].
  split; [rewrite Hfr; [done | subst child; lia | lia]|].
  split; done.
Qed.

(** ** The heap after a valid first call *)

Lemma len_0_nil {A} (l : list A) : len l = 0 -> l = [].
Proof. unfold len. destruct l; [done | cbn; lia]. Qed.

Lemma extend_first_structure depth self buf ns sh (h : heap) c :
  h !! self = Some c -> constructed c -> next_chunk c = None -> has_space c = true ->
  0 < ns -> len buf mod ns = 0 -> sh <> [] ->
  chunks_needed (max_data_bytes c) (len buf + num_data_bytes c)
    <= Z.of_nat depth + 1 ->
  let room := max_data_bytes c - num_data_bytes c in
  let stored :=
    if chunks_needed (max_data_bytes c) (len buf) =?
       chunks_needed (max_data_bytes c) (len buf + num_data_bytes c)
    then slice_to room buf else [] in
  exists h' k p,
    extend depth self buf ns sh false h = (h', Return (seq (length h) k)) /\
    length h' = (length h + k)%nat /\
    h' !! self = Some p /\
    index_shape_encoder p = index_shape_encoder c ++ [(sh, ns)] /\
    index_byte_range_encoder p
      = index_byte_range_encoder c ++ [(len buf / ns, ns)] /\
    max_data_bytes p = max_data_bytes c /\
    data p = data c ++ stored /\
    match seq (length h) k with
    | [] => next_chunk p = None /\ len buf <= room
    | child :: rest =>
        next_chunk p = Some child /\ room < len buf /\
        packed h' (max_data_bytes c) child (slice_from room buf) rest
    end /\
    Forall (fun b => exists cb, h' !! b = Some cb /\ no_headers cb)
      (seq (length h) k).
Proof.
  intros Hc Hw Hn Hs Hns Hmod Hsh Hdepth room stored.
  destruct (has_space_room c Hw Hs) as [Hd HM].
  assert (Hlt : (self < length h)%nat) by (eapply lookup_lt_Some; eauto).
  pose proof (len_nonneg buf) as Hbuf.
  rewrite (extend_first_eq _ _ _ _ _ _ c) by done.
  set (c0 := with_headers sh ns (len buf) c).
  set (h0 := <[self := c0]> h).
  assert (Hc0 : h0 !! self = Some c0) by (by apply list_lookup_insert_eq).
  assert (Hl0 : length h0 = length h) by apply length_insert.
  assert (Hlt0 : (self < length h0)%nat) by lia.
  change (max_data_bytes c) with (max_data_bytes c0) in *.
  change (num_data_bytes c) with (num_data_bytes c0) in *.
  assert (Hs0 : has_space c0 = true) by done.
  assert (Hw0 : constructed c0) by done.
  assert (Hn0 : next_chunk c0 = None) by done.
  subst stored.
  destruct (Z.eqb_spec (chunks_needed (max_data_bytes c0) (len buf))
              (chunks_needed (max_data_bytes c0) (len buf + num_data_bytes c0)))
    as [Hagree | Hdiff].
  - destruct (Z_le_gt_dec (len buf) room) as [Hfit | Hover].
    + rewrite (extend_leftover_fits _ _ _ _ _ _ c0) by done.
      exists (<[self := set_data (data c0 ++ buf) c0]> h0), 0%nat,
        (set_data (data c0 ++ buf) c0).
      split; [done|]. split; [rewrite length_insert; lia|].
      split; [by apply list_lookup_insert_eq|].
      split; [done|]. split; [done|]. split; [done|].
      split; [cbn; by rewrite slice_to_all by done|].
      split; [by split | constructor].
    + destruct depth as [|depth].
      { pose proof (chunks_needed_gt (max_data_bytes c0)
                      (len buf + num_data_bytes c0)). lia. }
      rewrite (extend_leftover_spawns _ _ _ _ _ _ c0) by (done || lia).
      cbv zeta. fold room.
      destruct (extend_child_chain depth self
                  (set_next_chunk (Some (length h0))
                     (set_data (data c0 ++ slice_to room buf) c0))
                  (slice_from room buf) ns sh h0 (max_data_bytes c0) Hlt0 HM)
        as (h' & k & He & Hl & Hp & Hpk & Hnone).
      { rewrite len_slice_from by lia.
        replace (len buf - room)
          with (len buf + num_data_bytes c0 - max_data_bytes c0)
          by (subst room; lia).
        rewrite chunks_needed_shift by lia. lia. }
      rewrite Hl0 in *. cbv zeta in He. rewrite He.
      eexists h', (S k), _. split; [done|]. split; [done|]. split; [exact Hp|].
      cbn [seq]. repeat split; (done || lia).
  - destruct (Z_le_gt_dec (len buf) 0) as [Hempty | Hpos].
    + assert (buf = []) as -> by (apply len_0_nil; lia).
      rewrite (extend_leftover_empty_buffer _ _ _ _ _ c0) by done.
      exists h0, 0%nat, c0.
      split; [done|]. split; [lia|]. split; [done|].
      split; [done|]. split; [done|]. split; [done|].
      split; [by rewrite app_nil_r|].
      split; [split; [done | subst room; lia] | constructor].
    + assert (Hover : room < len buf)
        by (apply (mismatch_overflows _ _ (num_data_bytes c0)); (done || lia)).
      destruct depth as [|depth].
      { pose proof (chunks_needed_gt (max_data_bytes c0)
                      (len buf + num_data_bytes c0)). lia. }
      rewrite (extend_leftover_mismatch_spawns _ _ _ _ _ _ c0) by (done || lia).
      cbv zeta. fold room.
      destruct (extend_child_chain depth self
                  (set_next_chunk (Some (length h0)) c0)
                  (slice_from room buf) ns sh h0 (max_data_bytes c0) Hlt0 HM)
        as (h' & k & He & Hl & Hp & Hpk & Hnone).
      { rewrite len_slice_from by lia.
        replace (len buf - room)
          with (len buf + num_data_bytes c0 - max_data_bytes c0)
          by (subst room; lia).
        rewrite chunks_needed_shift by lia. lia. }
      rewrite Hl0 in *. cbv zeta in He. rewrite He.
      eexists h', (S k), _. split; [done|]. split; [done|]. split; [exact Hp|].
      cbn [seq]. repeat split; try (done || lia).
      cbn. by rewrite app_nil_r.
Qed.

(** ** Valid first calls *)

(** X1. A valid first call always returns, whichever branch [_fill]
    takes, once the recursion limit allows one nested call per further
    chunk; the returned tuple lists exactly the chunks the call
    created, in creation order, and following [next_chunk] from the
    receiver visits them in that order and ends at a chunk without
    successor. *)
Theorem extend_returns_fresh_chain depth self buf ns sh (h : heap) c :
  h !! self = Some c -> constructed c -> next_chunk c = None -> has_space c = true ->
  0 < ns -> len buf mod ns = 0 -> sh <> [] ->
  chunks_needed (max_data_bytes c) (len buf + num_data_bytes c)
    <= Z.of_nat depth + 1 ->
  exists h' children,
    extend depth self buf ns sh false h = (h', Return children) /\
    children = seq (length h) (length children) /\
    length h' = (length h + length children)%nat /\
    linked h' self children.
Proof.
  intros Hc Hw Hn Hs Hns Hmod Hsh Hdepth.
  destruct (extend_first_structure depth self buf ns sh h c)
    as (h' & k & p & He & Hl & Hp & _ & _ & _ & _ & Hnext & _); try done.
  exists h', (seq (length h) k). rewrite length_seq.
  split; [done|]. split; [done|]. split; [done|].
  destruct k as [|k]; cbn [seq] in *.
  - cbn. exists p. by destruct Hnext.
  - destruct Hnext as (Hnext & _ & Hpk). cbn [linked].
    split; [by exists p|]. by apply (packed_linked _ _ _ _ _ Hpk).
Qed.

Lemma extend_returns_fresh_chain_witness :
  let h := [chunk_holding 100 (buffer_of_len 40)] in
  exists h' children,
    extend 1 0%nat (buffer_of_len 80) 1 [80] false h = (h', Return children) /\
    children = seq (length h) (length children) /\
    length h' = (length h + length children)%nat /\
    linked h' 0%nat children.
Proof.
  apply (extend_returns_fresh_chain 1 0%nat (buffer_of_len 80) 1 [80]
           [chunk_holding 100 (buffer_of_len 40)]
           (chunk_holding 100 (buffer_of_len 40)));
    try reflexivity; discriminate.
Defined.

(** X2. After a valid first call the chain made of the receiver and
    the returned chunks has [max(1, ceil((len(buffer) + len(data)) /
    max_data_bytes))] chunks, [len(data)] being the receiver's occupancy
    before the call: the number of spawned chunks is that ceiling minus
    one, in both branches of [_fill]. *)
Theorem extend_chain_length depth self buf ns sh (h : heap) c :
  h !! self = Some c -> constructed c -> next_chunk c = None -> has_space c = true ->
  0 < ns -> len buf mod ns = 0 -> sh <> [] ->
  chunks_needed (max_data_bytes c) (len buf + num_data_bytes c)
    <= Z.of_nat depth + 1 ->
  exists h' children,
    extend depth self buf ns sh false h = (h', Return children) /\
    Z.of_nat (length children) =
      Z.max 0 (chunks_needed (max_data_bytes c) (len buf + num_data_bytes c) - 1).
Proof.
  intros Hc Hw Hn Hs Hns Hmod Hsh Hdepth.
  destruct (has_space_room c Hw Hs) as [Hd HM].
  destruct (extend_first_structure depth self buf ns sh h c)
    as (h' & k & p & He & Hl & Hp & _ & _ & _ & _ & Hnext & _); try done.
  exists h', (seq (length h) k). rewrite length_seq. split; [done|].
  destruct k as [|k]; cbn [seq] in Hnext.
  - destruct Hnext as [_ Hfit].
    pose proof (chunks_needed_least (max_data_bytes c)
                  (len buf + num_data_bytes c) 1). lia.
  - destruct Hnext as (_ & Hover & Hpk).
    apply packed_count in Hpk; [|lia]. rewrite length_seq in Hpk.
    rewrite len_slice_from in Hpk by lia.
    replace (len buf - (max_data_bytes c - num_data_bytes c))
      with (len buf + num_data_bytes c - max_data_bytes c) in Hpk by lia.
    rewrite chunks_needed_shift in Hpk by lia.
    pose proof (chunks_needed_gt (max_data_bytes c) (len buf + num_data_bytes c)).
    pose proof (chunks_needed_gt (max_data_bytes c)
                  (len buf + num_data_bytes c - max_data_bytes c)).
    pose proof (chunks_needed_shift (max_data_bytes c)
                  (len buf + num_data_bytes c)).
    pose proof (chunks_needed_bounds (max_data_bytes c)
                  (len buf + num_data_bytes c - max_data_bytes c)).
    nia.
Qed.

Lemma extend_chain_length_witness :
  exists h' children,
    extend 2 0%nat (buffer_of_len 250) 5 [10; 10] false [Chunk_new 100]
      = (h', Return children) /\
    Z.of_nat (length children) =
      Z.max 0 (chunks_needed 100 (len (buffer_of_len 250) + 0) - 1).
Proof.
  apply (extend_chain_length 2 0%nat (buffer_of_len 250) 5 [10; 10]
           [Chunk_new 100] (Chunk_new 100));
    try reflexivity; discriminate.
Defined.

(** X3. When the two chunk counts [_fill] compares differ, a valid
    first call still returns; the receiver's data is what it was, and
    the chain holds the old data followed by [buffer[room:]], where
    [room = max_data_bytes - len(data)] is positive: for a non-empty
    buffer the first [room] bytes of the buffer are in no chunk. *)
Theorem extend_mismatch_drops_prefix depth self buf ns sh (h : heap) c :
  h !! self = Some c -> constructed c -> next_chunk c = None -> has_space c = true ->
  0 < ns -> len buf mod ns = 0 -> sh <> [] ->
  chunks_needed (max_data_bytes c) (len buf) <>
    chunks_needed (max_data_bytes c) (len buf + num_data_bytes c) ->
  chunks_needed (max_data_bytes c) (len buf + num_data_bytes c)
    <= Z.of_nat depth + 1 ->
  let room := max_data_bytes c - num_data_bytes c in
  exists h' children p,
    extend depth self buf ns sh false h = (h', Return children) /\
    h' !! self = Some p /\ data p = data c /\
    chain_data h' (self :: children) = Some (data c ++ slice_from room buf) /\
    0 < room /\ (0 < len buf -> room < len buf).
Proof.
  intros Hc Hw Hn Hs Hns Hmod Hsh Hdiff Hdepth room.
  destruct (has_space_room c Hw Hs) as [Hd HM].
  destruct (extend_first_structure depth self buf ns sh h c)
    as (h' & k & p & He & Hl & Hp & _ & _ & _ & Hdata & Hnext & _); try done.
  rewrite (proj2 (Z.eqb_neq _ _) Hdiff), app_nil_r in Hdata.
  exists h', (seq (length h) k), p.
  split; [done|]. split; [done|]. split; [done|].
  split; [|split; [subst room; lia|]].
  - destruct (seq (length h) k) as [|child rest].
    + destruct Hnext as [Hnone Hfit]. cbn. rewrite Hp, Hdata.
      pose proof (len_nonneg buf).
      destruct (Z_le_gt_dec (len buf) 0).
      * assert (buf = []) as -> by (apply len_0_nil; lia).
        unfold slice_from. by destruct (0 <=? room); rewrite drop_nil.
      * pose proof (mismatch_overflows (max_data_bytes c) (len buf)
                      (num_data_bytes c)). fold room in Hfit. lia.
    + destruct Hnext as (_ & _ & Hpk).
      apply packed_chain_data in Hpk; [|lia].
      change (chain_data h' (self :: child :: rest))
        with (match h' !! self, chain_data h' (child :: rest) with
              | Some c, Some d => Some (data c ++ d)
              | _, _ => None
              end).
      by rewrite Hp, Hpk, Hdata.
  - intros Hpos.
    apply (mismatch_overflows (max_data_bytes c) (len buf) (num_data_bytes c));
      (done || lia).
Qed.

Lemma extend_mismatch_drops_prefix_witness :
  let held := buffer_of_len 40 in
  let buf := buffer_of_len 80 in
  exists h' children p,
    extend 1 0%nat buf 1 [80] false [chunk_holding 100 held] = (h', Return children) /\
    h' !! 0%nat = Some p /\ data p = held /\
    chain_data h' (0%nat :: children) = Some (held ++ slice_from (100 - 40) buf) /\
    0 < 100 - 40 /\ (0 < len buf -> 100 - 40 < len buf).
Proof.
  apply (extend_mismatch_drops_prefix 1 0%nat (buffer_of_len 80) 1 [80]
           [chunk_holding 100 (buffer_of_len 40)]
           (chunk_holding 100 (buffer_of_len 40)));
    try reflexivity; discriminate.
Defined.

(** X4. After a valid first call every returned chunk has the
    receiver's capacity and holds at most that many bytes, and every
    returned chunk that has a successor is filled to capacity exactly:
    only the last chunk of the chain can be partly filled. *)
Theorem extend_children_full depth self buf ns sh (h : heap) c :
  h !! self = Some c -> constructed c -> next_chunk c = None -> has_space c = true ->
  0 < ns -> len buf mod ns = 0 -> sh <> [] ->
  chunks_needed (max_data_bytes c) (len buf + num_data_bytes c)
    <= Z.of_nat depth + 1 ->
  exists h' children,
    extend depth self buf ns sh false h = (h', Return children) /\
    Forall (fun b => exists cb, h' !! b = Some cb /\
                       max_data_bytes cb = max_data_bytes c /\
                       len (data cb) <= max_data_bytes c /\
                       (is_Some (next_chunk cb) -> len (data cb) = max_data_bytes c))
      children.
Proof.
  intros Hc Hw Hn Hs Hns Hmod Hsh Hdepth.
  destruct (has_space_room c Hw Hs) as [Hd HM].
  destruct (extend_first_structure depth self buf ns sh h c)
    as (h' & k & p & He & Hl & Hp & _ & _ & _ & _ & Hnext & _); try done.
  exists h', (seq (length h) k). split; [done|].
  destruct (seq (length h) k) as [|child rest]; [constructor|].
  destruct Hnext as (_ & _ & Hpk).
  eapply packed_chunks; [|exact Hpk]. lia.
Qed.

Lemma extend_children_full_witness :
  exists h' children,
    extend 2 0%nat (buffer_of_len 250) 5 [10; 10] false [Chunk_new 100]
      = (h', Return children) /\
    Forall (fun b => exists cb, h' !! b = Some cb /\
                       max_data_bytes cb = 100 /\
                       len (data cb) <= 100 /\
                       (is_Some (next_chunk cb) -> len (data cb) = 100))
      children.
Proof.
  apply (extend_children_full 2 0%nat (buffer_of_len 250) 5 [10; 10]
           [Chunk_new 100] (Chunk_new 100));
    try reflexivity; discriminate.
Defined.

(** X5. A valid first call registers the batch once: the receiver
    gains exactly one run in each index, [(sample_shape, num_samples)]
    and [(len(buffer) // num_samples, num_samples)], and every returned
    chunk has empty indexes, however many chunks the payload spans. *)
Theorem extend_registers_batch_once depth self buf ns sh (h : heap) c :
  h !! self = Some c -> constructed c -> next_chunk c = None -> has_space c = true ->
  0 < ns -> len buf mod ns = 0 -> sh <> [] ->
  chunks_needed (max_data_bytes c) (len buf + num_data_bytes c)
    <= Z.of_nat depth + 1 ->
  exists h' children p,
    extend depth self buf ns sh false h = (h', Return children) /\
    h' !! self = Some p /\
    index_shape_encoder p = index_shape_encoder c ++ [(sh, ns)] /\
    index_byte_range_encoder p
      = index_byte_range_encoder c ++ [(len buf / ns, ns)] /\
    Forall (fun b => exists cb, h' !! b = Some cb /\ no_headers cb) children.
Proof.
  intros Hc Hw Hn Hs Hns Hmod Hsh Hdepth.
  destruct (extend_first_structure depth self buf ns sh h c)
    as (h' & k & p & He & Hl & Hp & Hsh' & Hbr & _ & _ & _ & Hnone); try done.
  by exists h', (seq (length h) k), p.
Qed.

Lemma extend_registers_batch_once_witness :
  let c := chunk_holding 100 (buffer_of_len 40) in
  exists h' children p,
    extend 1 0%nat (buffer_of_len 80) 2 [40] false [c] = (h', Return children) /\
    h' !! 0%nat = Some p /\
    index_shape_encoder p = index_shape_encoder c ++ [([40], 2)] /\
    index_byte_range_encoder p
      = index_byte_range_encoder c ++ [(len (buffer_of_len 80) / 2, 2)] /\
    Forall (fun b => exists cb, h' !! b = Some cb /\ no_headers cb) children.
Proof.
  apply (extend_registers_batch_once 1 0%nat (buffer_of_len 80) 2 [40]
           [chunk_holding 100 (buffer_of_len 40)]
           (chunk_holding 100 (buffer_of_len 40)));
    try reflexivity; discriminate.
Defined.

(** X6. On a chunk just built by the constructor with a capacity of at
    least 2, a valid first call loses nothing: it returns, and the data
    of the receiver followed by the data of the returned chunks is the
    buffer itself. *)
Theorem extend_new_chunk_keeps_buffer depth self buf ns sh (h : heap) m :
  h !! self = Some (Chunk_new m) -> 2 <= m ->
  0 < ns -> len buf mod ns = 0 -> sh <> [] ->
  chunks_needed m (len buf) <= Z.of_nat depth + 1 ->
  exists h' children,
    extend depth self buf ns sh false h = (h', Return children) /\
    chain_data h' (self :: children) = Some buf.
Proof.
  intros Hc Hm Hns Hmod Hsh Hdepth.
  apply (extend_first_chain_empty depth self buf ns sh h (Chunk_new m));
    try done.
  by apply Chunk_new_has_space.
Qed.

Lemma extend_new_chunk_keeps_buffer_witness :
  exists h' children,
    extend 2 0%nat (buffer_of_len 250) 5 [10; 10] false [Chunk_new 100]
      = (h', Return children) /\
    chain_data h' (0%nat :: children) = Some (buffer_of_len 250).
Proof.
  apply (extend_new_chunk_keeps_buffer 2 0%nat (buffer_of_len 250) 5 [10; 10]
           [Chunk_new 100] 100);
    try reflexivity; (lia || discriminate).
Defined.

(** X7. An empty buffer is a valid batch for every positive sample
    count: the call returns no chunk, copies nothing and leaves the
    [next_chunk] link unset, yet registers [num_samples] samples of 0
    bytes in the receiver's indexes, whatever the receiver already
    holds and whatever the recursion limit. *)
Theorem extend_empty_buffer depth self ns sh (h : heap) c :
  h !! self = Some c -> constructed c -> next_chunk c = None -> has_space c = true ->
  0 < ns -> sh <> [] ->
  exists p,
    extend depth self [] ns sh false h = (<[self := p]> h, Return []) /\
    data p = data c /\ next_chunk p = None /\
    max_data_bytes p = max_data_bytes c /\
    index_shape_encoder p = index_shape_encoder c ++ [(sh, ns)] /\
    index_byte_range_encoder p = index_byte_range_encoder c ++ [(0, ns)].
Proof.
  intros Hc Hw Hn Hs Hns Hsh.
  assert (Hlt : (self < length h)%nat) by (eapply lookup_lt_Some; eauto).
  exists (with_headers sh ns (len (@nil byte)) c).
  rewrite (extend_first_eq _ _ _ _ _ _ c) by (done || apply Zmod_0_l).
  rewrite (extend_leftover_empty_buffer _ _ _ _ _
             (with_headers sh ns (len (@nil byte)) c));
    [|by apply list_lookup_insert_eq|done..].
  repeat split; done.
Qed.

Lemma extend_empty_buffer_witness :
  let c := chunk_holding 100 (buffer_of_len 40) in
  exists p,
    extend 0 0%nat [] 3 [7] false [c] = (<[0%nat := p]> [c], Return []) /\
    data p = data c /\ next_chunk p = None /\
    max_data_bytes p = max_data_bytes c /\
    index_shape_encoder p = index_shape_encoder c ++ [([7], 3)] /\
    index_byte_range_encoder p = index_byte_range_encoder c ++ [(0, 3)].
Proof.
  apply (extend_empty_buffer 0 0%nat 3 [7]
           [chunk_holding 100 (buffer_of_len 40)]
           (chunk_holding 100 (buffer_of_len 40)));
    try reflexivity; discriminate.
Defined.

(** ** Any call *)

Lemma headers_step_keeps self n ns sh (lo : bool) (h h0 : heap) c r :
  (if negb lo then _update_headers self n ns sh else ret tt) h = (h0, r) ->
  h !! self = Some c ->
  exists c0, h0 !! self = Some c0 /\ same_payload c c0.
Proof.
  intros Hh Hc. destruct lo; cbn [negb] in Hh.
  - inversion Hh; subst. exists c. by split.
  - apply _update_headers_inv in Hh as [-> | (c1 & c0 & Hc1 & Hsame & ->)].
    + exists c. by split.
    + exists c0. assert (c1 = c) as -> by congruence.
      split; [|done]. apply list_lookup_insert_eq. eapply lookup_lt_Some; eauto.
Qed.

Lemma fill_step_keeps self buf (h0 h1 : heap) c0 r :
  _fill self buf h0 = (h1, r) -> h0 !! self = Some c0 ->
  max_data_bytes c0 <> 0 ->
  exists k c1, r = Return k /\ h1 !! self = Some c1 /\
    next_chunk c1 = next_chunk c0 /\ max_data_bytes c1 = max_data_bytes c0.
Proof.
  intros Hf Hc0 HM. rewrite _fill_eq, Hc0 in Hf.
  rewrite (proj2 (Z.eqb_neq _ 0)) in Hf by done. cbn zeta in Hf.
  destruct (_ =? _); inversion Hf; subst.
  - eexists _, (set_data _ c0). split; [done|]. split; [|done].
    apply list_lookup_insert_eq. eapply lookup_lt_Some; eauto.
  - by eexists _, c0.
Qed.

(** The receiver's link after a call that returned. *)
Lemma extend_return_next depth self buf ns sh lo (h h' : heap) cs :
  extend depth self buf ns sh lo h = (h', Return cs) ->
  exists p, h' !! self = Some p /\ next_chunk p = head cs.
Proof.
  rewrite extend_eq. intros H.
  apply bind_inv in H as [(h1 & c & Hd & H) | (e & _ & [=])].
  apply deref_inv in Hd as [-> [(c' & Hc & [= <-]) | [_ [=]]]].
  destruct (next_chunk c) eqn:Hn; [by inversion H|].
  destruct (negb (has_space c)) eqn:Hs; [by inversion H|].
  apply bind_inv in H as [(h0 & [] & Hh & H) | (e & _ & [=])].
  destruct (headers_step_keeps _ _ _ _ _ _ _ _ _ Hh Hc)
    as (c0 & Hc0 & (HM0 & _ & _ & Hn0)).
  apply bind_inv in H as [(h2 & k & Hf & H) | (e & _ & [=])].
  assert (Hf' := Hf). rewrite _fill_eq, Hc0 in Hf'.
  destruct (max_data_bytes c0 =? 0) eqn:HMz; [by inversion Hf'|].
  apply Z.eqb_neq in HMz.
  destruct (fill_step_keeps _ _ _ _ _ _ Hf Hc0 HMz)
    as (k' & c1 & _ & Hc1 & Hn1 & _).
  destruct (len buf <=? k).
  { inversion H; subst. exists c1. split; [done|]. cbn. congruence. }
  apply bind_inv in H as [(h3 & child & Hsp & H) | (e & _ & [=])].
  apply _spawn_child_chunk_inv in Hsp
    as [[_ [e [=]]] | (c1' & Hc1' & _ & [= ->] & ->)].
  destruct depth as [|depth]; [by inversion H|].
  apply bind_inv in H as [(h4 & cs' & He & H) | (e & _ & [=])].
  inversion H; subst.
  assert (Hself : (<[self := set_next_chunk (Some (length h2)) c1']>
                     (h2 ++ [Chunk_new (max_data_bytes c1')])) !! self
                  = Some (set_next_chunk (Some (length h2)) c1')).
  { apply list_lookup_insert_eq. rewrite length_app.
    assert (self < length h2)%nat by (eapply lookup_lt_Some; eauto). lia. }
  destruct (extend_heap_grows _ _ _ _ _ _ _ _ _ He _ _ Hself)
    as (p & Hp & _ & _ & Hnext & _).
  exists p. split; [done|]. by apply Hnext.
Qed.

(** X8. When a call returns, the receiver's [next_chunk] is the first
    returned chunk, and is unset when the call returned no chunk; and
    after a call that returned at least one chunk every further [extend]
    call on the receiver, whatever its arguments, raises the
    sealed-chunk exception and changes nothing. *)
Theorem extend_return_tells_seal depth self buf ns sh lo (h h' : heap) cs :
  extend depth self buf ns sh lo h = (h', Return cs) ->
  (exists p, h' !! self = Some p /\ next_chunk p = head cs) /\
  (cs <> [] -> forall depth2 buf2 ns2 sh2 lo2,
     extend depth2 self buf2 ns2 sh2 lo2 h' = (h', Raise ConnectedToNextChunk)).
Proof.
  intros He. destruct (extend_return_next _ _ _ _ _ _ _ _ _ He) as (p & Hp & Hnext).
  split; [by exists p|].
  intros Hne depth2 buf2 ns2 sh2 lo2.
  destruct cs as [|child rest]; [done|]. cbn in Hnext.
  by rewrite extend_eq, (bind_Return _ _ _ _ _ (deref_Some _ _ _ Hp)), Hnext.
Qed.

Lemma extend_return_tells_seal_witness :
  let h' := (extend 1 0%nat (buffer_of_len 150) 1 [150] false [Chunk_new 100]).1 in
  (exists p, h' !! 0%nat = Some p /\ next_chunk p = head [1%nat]) /\
  ([1%nat] <> [] -> forall depth2 buf2 ns2 sh2 lo2,
     extend depth2 0%nat buf2 ns2 sh2 lo2 h' = (h', Raise ConnectedToNextChunk)).
Proof.
  intros h'.
  apply (extend_return_tells_seal 1 0%nat (buffer_of_len 150) 1 [150] false
           [Chunk_new 100] h' [1%nat]).
  vm_compute. reflexivity.
Defined.

(** X9. Whatever its arguments and its outcome, a call keeps every
    chunk of the heap in place, changes no chunk other than the
    receiver, and only adds bytes at the end of the receiver's data:
    no stored byte is ever overwritten or removed. *)
Theorem extend_touches_receiver_only depth self buf ns sh lo (h h' : heap) r :
  extend depth self buf ns sh lo h = (h', r) ->
  forall a c, h !! a = Some c ->
    exists c', h' !! a = Some c' /\
      data c `prefix_of` data c' /\
      max_data_bytes c' = max_data_bytes c /\
      (a <> self -> c' = c).
Proof.
  intros He a c Hc.
  destruct (extend_heap_grows _ _ _ _ _ _ _ _ _ He a c Hc)
    as (c' & Hc' & HM & _ & _ & Hpre).
  destruct (extend_frame _ _ _ _ _ _ _ _ _ He) as [_ Hfr].
  exists c'. split; [done|]. split; [done|]. split; [done|].
  intros Hne. rewrite Hfr in Hc'; [congruence | done |].
  eapply lookup_lt_Some; eauto.
Qed.

Lemma extend_touches_receiver_only_witness :
  let h := [Chunk_new 100; chunk_holding 100 (buffer_of_len 7)] in
  let res := extend 1 0%nat (buffer_of_len 150) 1 [150] false h in
  exists c', res.1 !! 1%nat = Some c' /\
    data (chunk_holding 100 (buffer_of_len 7)) `prefix_of` data c' /\
    max_data_bytes c' = max_data_bytes (chunk_holding 100 (buffer_of_len 7)) /\
    (1%nat <> 0%nat -> c' = chunk_holding 100 (buffer_of_len 7)).
Proof.
  intros h res.
  apply (extend_touches_receiver_only 1 0%nat (buffer_of_len 150) 1 [150] false
           h res.1 res.2); [apply surjective_pairing | reflexivity].
Defined.

Lemma headers_step_constructed self n ns sh (lo : bool) (h h0 : heap) r :
  (if negb lo then _update_headers self n ns sh else ret tt) h = (h0, r) ->
  Forall constructed h -> Forall constructed h0.
Proof.
  intros Hh. destruct lo; cbn [negb] in Hh.
  - by inversion Hh.
  - apply (keeps_constructed_headers _ _ _ _ _ _ _ Hh).
Qed.

(** One level of a call that raised: the exception is one of the five
    [extend] can end with, or it comes from the nested call on the
    child. *)
Lemma extend_raise_cases depth self buf ns sh lo (h h' : heap) c e :
  Forall constructed h -> h !! self = Some c ->
  extend depth self buf ns sh lo h = (h', Raise e) ->
  extend_may_raise e \/
  exists depth' child rest (h2 : heap),
    depth = S depth' /\ Forall constructed h2 /\ is_Some (h2 !! child) /\
    extend depth' child rest ns sh true h2 = (h', Raise e).
Proof.
  intros Hall Hc. rewrite extend_eq, (bind_Return _ _ _ _ _ (deref_Some _ _ _ Hc)).
  destruct (next_chunk c) eqn:Hn; [intros [= <- <-]; by left|].
  destruct (has_space c) eqn:Hs; cbn [negb]; [|intros [= <- <-]; by left].
  pose proof (Forall_lookup_1 _ _ _ _ Hall Hc) as Hw.
  destruct (has_space_room c Hw Hs) as [Hd HM].
  intros H. apply bind_inv in H as [(h0 & [] & Hh & H) | (e0 & Hh & Heq)].
  - destruct (headers_step_keeps _ _ _ _ _ _ _ _ _ Hh Hc)
      as (c0 & Hc0 & (HM0 & _ & _ & Hn0)).
    pose proof (headers_step_constructed _ _ _ _ _ _ _ _ Hh Hall) as Hall0.
    apply bind_inv in H as [(h1 & k & Hf & H) | (e1 & Hf & Heq)].
    + destruct (fill_step_keeps _ _ _ _ _ _ Hf Hc0 ltac:(lia))
        as (k' & c1 & _ & Hc1 & Hn1 & HM1).
      pose proof (keeps_constructed_fill _ _ _ _ _ Hf Hall0) as Hall1.
      destruct (len buf <=? k); [by inversion H|].
      apply bind_inv in H as [(h2 & child & Hsp & H) | (e2 & Hsp & Heq)].
      * pose proof (keeps_constructed_spawn _ _ _ _ Hsp Hall1) as Hall2.
        apply _spawn_child_chunk_inv in Hsp
          as [[_ [e2 [=]]] | (c1' & Hc1' & _ & [= ->] & ->)].
        destruct depth as [|depth]; [inversion H; subst; by left|].
        apply bind_inv in H as [(h3 & cs & He & H) | (e3 & He & Heq)];
          [by inversion H|].
        inversion Heq; subst. right.
        eexists depth, _, _, _. split; [done|]. split; [exact Hall2|].
        split; [|exact He].
        exists (Chunk_new (max_data_bytes c1')).
        rewrite list_lookup_insert_ne
          by (assert (self < length h1)%nat by (eapply lookup_lt_Some; eauto); lia).
        by apply list_lookup_middle.
      * rewrite _spawn_child_chunk_eq, Hc1, Hn1, Hn0, Hn in Hsp. by inversion Hsp.
    + destruct (fill_step_keeps _ _ _ _ _ _ Hf Hc0 ltac:(lia)) as (k' & ? & [=] & _).
  - inversion Heq; subst. left. destruct lo; cbn [negb] in Hh; [by inversion Hh|].
    rewrite _update_headers_eq, Hc in Hh.
    unfold _validate_incoming_buffer, add_shape, add_byte_position in Hh.
    repeat (match type of Hh with
            | context [if ?b then _ else _] => destruct b
            end; cbn in Hh); by inversion Hh.
Qed.

(** X10. On a heap of chunks built by the constructor, an [extend]
    call on an existing chunk ends, when it raises, with the
    sealed-chunk or the no-space exception, a [ValueError] of the batch
    validation, an invalid-run error of the encoders or the recursion
    limit.  It never raises [ZeroDivisionError] (a capacity of 0 is
    stopped by [has_space] before [_fill] divides) nor the
    already-spawned exception of [_spawn_child_chunk] (the link is
    checked first). *)
Theorem extend_raises_only depth : forall self buf ns sh lo (h h' : heap) e,
  Forall constructed h -> is_Some (h !! self) ->
  extend depth self buf ns sh lo h = (h', Raise e) ->
  extend_may_raise e.
Proof.
  induction depth as [|depth IH]; intros self buf ns sh lo h h' e Hall [c Hc] He.
  - destruct (extend_raise_cases _ _ _ _ _ _ _ _ _ _ Hall Hc He)
      as [? | (d & ? & ? & ? & [=] & _)]. done.
  - destruct (extend_raise_cases _ _ _ _ _ _ _ _ _ _ Hall Hc He)
      as [? | (d & child & rest & h2 & [= <-] & Hall2 & Hsome & He2)]; [done|].
    by apply (IH _ _ _ _ _ _ _ _ Hall2 Hsome He2).
Qed.

Lemma extend_raises_only_witness :
  extend_may_raise RecursionError /\ extend_may_raise NoSpaceLeft.
Proof.
  split.
  - apply (extend_raises_only 0 0%nat (buffer_of_len 150) 1 [150] false
             [Chunk_new 100]
             (extend 0 0%nat (buffer_of_len 150) 1 [150] false [Chunk_new 100]).1
             RecursionError);
      [repeat constructor | by eexists | reflexivity].
  - apply (extend_raises_only 3 0%nat (buffer_of_len 1) 1 [1] true
             [Chunk_new 0] [Chunk_new 0] NoSpaceLeft);
      [repeat constructor | by eexists | reflexivity].
Defined.

(** X11. [_min_chunks_required_for_num_bytes] does what its docstring
    says on the range where the float division of the source is exact
    enough: for [0 < max_data_bytes < 2^53] and
    [0 <= num_bytes < 2^53] it returns the least number [k] of chunks
    whose joint capacity [k * max_data_bytes] reaches [num_bytes]; for
    a capacity of 0 it raises [ZeroDivisionError], whatever the
    number of bytes. *)
Theorem min_chunks_is_least (c : Chunk) (num_bytes : Z) :
  (0 < max_data_bytes c < 2 ^ 53 -> 0 <= num_bytes < 2 ^ 53 ->
   exists k, _min_chunks_required_for_num_bytes c num_bytes = Return k /\
     num_bytes <= k * max_data_bytes c /\
     forall j, num_bytes <= j * max_data_bytes c -> k <= j) /\
  (max_data_bytes c = 0 ->
   _min_chunks_required_for_num_bytes c num_bytes = Raise ZeroDivisionError).
Proof.
  unfold _min_chunks_required_for_num_bytes. split.
  - intros HM Hn. rewrite (proj2 (Z.eqb_neq _ 0)) by lia.
    exists (chunks_needed (max_data_bytes c) num_bytes).
    split; [done|]. split.
    + apply chunks_needed_bounds. lia.
    + intros j Hj. apply chunks_needed_least; [lia | done].
  - by intros ->.
Qed.

Lemma min_chunks_is_least_witness :
  (exists k, _min_chunks_required_for_num_bytes (Chunk_new 100) 250 = Return k /\
     250 <= k * 100 /\ forall j, 250 <= j * 100 -> k <= j) /\
  _min_chunks_required_for_num_bytes (Chunk_new 0) 250 = Raise ZeroDivisionError.
Proof.
  split.
  - apply (proj1 (min_chunks_is_least (Chunk_new 100) 250)); cbn; lia.
  - apply (proj2 (min_chunks_is_least (Chunk_new 0) 250)). reflexivity.
Defined.

(** ** Successive batches *)




(** ** The threshold of every chunk *)

(** X13. [min_data_bytes_target] is half of [max_data_bytes] (rounded
    down) for every chunk the constructor builds, and stays so for
    every chunk of the heap, the spawned ones included, across any
    [extend] call, whatever its arguments and its outcome. *)
Theorem threshold_is_half_capacity :
  (forall m (h : heap), Forall constructed h ->
     Forall constructed (Chunk_init m h).1) /\
  (forall depth self buf ns sh lo (h : heap), Forall constructed h ->
     Forall constructed (extend depth self buf ns sh lo h).1).
Proof.
  split.
  - intros m h. apply Chunk_init_constructed.
  - intros depth self buf ns sh lo h Hall.
    destruct (extend depth self buf ns sh lo h) as [h' r] eqn:He.
    apply (extend_keeps_constructed _ _ _ _ _ _ _ _ _ He Hall).
Qed.

Lemma threshold_is_half_capacity_witness :
  let h := (Chunk_init 100 []).1 in
  Forall constructed h /\
  Forall constructed (extend 2 0%nat (buffer_of_len 250) 5 [10; 10] false h).1.
Proof.
  intros h.
  assert (Hh : Forall constructed h)
    by (apply (proj1 threshold_is_half_capacity); constructor).
  split; [exact Hh|].
  apply (proj2 threshold_is_half_capacity). exact Hh.
Defined.
